(** * YTune: the playback queue controller of [core/playback.py]

    A shallow embedding of [PlaybackManager]: the queue of track ids, the
    current index, the playback mode, and the operations that move between
    them.  The Qt objects the class talks to (the [QMediaPlayer], the
    [QTimer] event loop, the signals) are kept as a log of effects and a list
    of pending timers; what the class reads back from the outside (the track
    database, the file system, the player's position and state, the random
    generator) is a [World] handed to every operation. *)

From Stdlib Require Import ZArith List Ascii String Bool Lia Permutation.
Import ListNotations.
Open Scope Z_scope.

Set Implicit Arguments.

(** ** core/models.py *)

Record Track := mkTrack {
  id : option Z;
  filepath : string;
  title : string
}.

(** ** Enumerations of core/playback.py and of QMediaPlayer *)

Inductive PlaybackState := StoppedState | PlayingState | PausedState.

Module PlaybackState.
Definition STOPPED := StoppedState.
Definition PLAYING := PlayingState.
Definition PAUSED := PausedState.
Definition eqb (a b : PlaybackState) : bool :=
  match a, b with
  | StoppedState, StoppedState | PlayingState, PlayingState
  | PausedState, PausedState => true
  | _, _ => false
  end.
End PlaybackState.

(** [PlaybackMode] is a class of plain integers; [set_playback_mode] takes
    any [int]. *)
Module PlaybackMode.
Definition NORMAL : Z := 0.      (* Play tracks in order, stop at end *)
Definition REPEAT_ONE : Z := 1.  (* Repeat current track *)
Definition REPEAT_ALL : Z := 2.  (* Repeat playlist, looping back to start *)
Definition SHUFFLE : Z := 3.     (* Play tracks in random order *)
End PlaybackMode.

Inductive MediaStatus :=
| NoMedia | LoadingMedia | LoadedMedia | StalledMedia
| BufferingMedia | BufferedMedia | EndOfMedia | InvalidMedia.

(** ** Signals, player calls and timers: the effects of the controller *)

(** The texts the code builds with f-strings, kept structured:
    [TrackNotFound i p] is "Track not found or file missing: ID i" followed by
    " Path: p" when the track row exists; [PlayerError e] is
    "Playback error: e"; [InvalidMediaFile f] is "Invalid media: f". *)
Inductive Message :=
| TrackNotFound (track_id : Z) (path : option string)
| PlayerError (error_string : string)
| InvalidMediaFile (local_file : string)
| InvalidTrackObject.

Inductive Signal :=
| state_changed (st : PlaybackState)
| track_changed (t : option Track)
| playback_error (msg : Message)
| queue_changed (ids : list Z)
| mode_changed (mode : Z).

Inductive PlayerCall :=
| player_setSource (path : string)
| player_play
| player_pause
| player_stop
| player_setPosition (ms : Z).

(** [SingleShot d] is [QTimer.singleShot(d, self.play_next)]: every timer of
    the class has [play_next] as its callback. *)
Inductive Effect :=
| Emit (sig : Signal)
| Player (c : PlayerCall)
| SingleShot (msec : Z).

(** ** What the controller reads from outside *)

Record World := mkWorld {
  get_track_by_id : Z -> option Track;      (* database.get_track_by_id *)
  all_track_ids : list Z;
    (* [t.id for t in get_all_tracks()]: database.get_all_tracks builds each
       Track with id=row[0], the INTEGER PRIMARY KEY of the tracks table, so
       every id of the library is an int, never None *)
  path_exists : string -> bool;             (* os.path.exists *)
  random_shuffle : list Z -> list Z;        (* random.shuffle, on a list *)
  player_playbackState : PlaybackState;     (* self.player.playbackState() *)
  player_position : Z;                      (* self.player.position() *)
  player_source : string                    (* self.player.source().toLocalFile() *)
}.

(** ** The object *)

Record PlaybackManager := mkPM {
  current_track : option Track;
  current_playlist_ids : list Z;
  playback_queue_ids : list Z;
  current_queue_index : Z;
  playback_mode : Z;
  _playing_next_automatically : bool;
  pending_timers : list Z;     (* singleShot timers not yet fired *)
  effects : list Effect        (* everything done so far, oldest first *)
}.

(** [PlaybackManager.__init__] *)
Definition init : PlaybackManager :=
  {| current_track := None;
     current_playlist_ids := [];
     playback_queue_ids := [];
     current_queue_index := -1;
     playback_mode := PlaybackMode.REPEAT_ALL;
     _playing_next_automatically := false;
     pending_timers := [];
     effects := [] |}.

Definition with_current_track (v : option Track) (s : PlaybackManager) :=
  mkPM v (current_playlist_ids s) (playback_queue_ids s)
       (current_queue_index s) (playback_mode s)
       (_playing_next_automatically s) (pending_timers s) (effects s).

Definition with_playback_queue_ids (v : list Z) (s : PlaybackManager) :=
  mkPM (current_track s) (current_playlist_ids s) v
       (current_queue_index s) (playback_mode s)
       (_playing_next_automatically s) (pending_timers s) (effects s).

Definition with_current_queue_index (v : Z) (s : PlaybackManager) :=
  mkPM (current_track s) (current_playlist_ids s) (playback_queue_ids s)
       v (playback_mode s)
       (_playing_next_automatically s) (pending_timers s) (effects s).

Definition with_playback_mode (v : Z) (s : PlaybackManager) :=
  mkPM (current_track s) (current_playlist_ids s) (playback_queue_ids s)
       (current_queue_index s) v
       (_playing_next_automatically s) (pending_timers s) (effects s).

Definition with_playing_next_automatically (v : bool) (s : PlaybackManager) :=
  mkPM (current_track s) (current_playlist_ids s) (playback_queue_ids s)
       (current_queue_index s) (playback_mode s)
       v (pending_timers s) (effects s).

Definition with_pending_timers (v : list Z) (s : PlaybackManager) :=
  mkPM (current_track s) (current_playlist_ids s) (playback_queue_ids s)
       (current_queue_index s) (playback_mode s)
       (_playing_next_automatically s) v (effects s).

Definition with_effects (v : list Effect) (s : PlaybackManager) :=
  mkPM (current_track s) (current_playlist_ids s) (playback_queue_ids s)
       (current_queue_index s) (playback_mode s)
       (_playing_next_automatically s) (pending_timers s) v.

(** ** Methods run in a state-and-exception monad

    A Python exception leaves the object as it was when it was raised, so
    [Raised] carries the state too. *)

Inductive Exception := IndexError | ValueError.

Inductive Outcome (A : Type) :=
| Returned (a : A) (s : PlaybackManager)
| Raised (e : Exception) (s : PlaybackManager).

Arguments Raised {A} e s.

Definition M (A : Type) := PlaybackManager -> Outcome A.

Definition ret {A} (a : A) : M A := fun s => Returned a s.

Definition bind {A B} (m : M A) (k : A -> M B) : M B :=
  fun s => match m s with
           | Returned a s' => k a s'
           | Raised e s' => Raised e s'
           end.

Definition raise {A} (e : Exception) : M A := fun s => Raised e s.

Definition gets {A} (f : PlaybackManager -> A) : M A := fun s => Returned (f s) s.

Definition modify (f : PlaybackManager -> PlaybackManager) : M unit :=
  fun s => Returned tt (f s).

(** [try: body / except ValueError: handler] *)
Definition try_except_ValueError {A} (body handler : M A) : M A :=
  fun s => match body s with
           | Raised ValueError s' => handler s'
           | o => o
           end.

Declare Scope py_scope.
Delimit Scope py_scope with py.
Notation "x <- m ;; k" := (bind m (fun x => k))
  (at level 61, m at next level, right associativity) : py_scope.
Notation "m ;; k" := (bind m (fun _ => k))
  (at level 61, right associativity) : py_scope.
Open Scope py_scope.

Definition final_state {A} (o : Outcome A) : PlaybackManager :=
  match o with Returned _ s => s | Raised _ s => s end.

Definition returned {A} (o : Outcome A) : bool :=
  match o with Returned _ _ => true | Raised _ _ => false end.

Definition emit (sig : Signal) : M unit :=
  modify (fun s => with_effects (effects s ++ [Emit sig]) s).

Definition player (c : PlayerCall) : M unit :=
  modify (fun s => with_effects (effects s ++ [Player c]) s).

Definition singleShot (msec : Z) : M unit :=
  modify (fun s => with_effects (effects s ++ [SingleShot msec])
                     (with_pending_timers (pending_timers s ++ [msec]) s)).

(** ** Python lists of ints *)

Definition len (l : list Z) : Z := Z.of_nat (List.length l).

(** [x in l] *)
Definition py_in (x : Z) (l : list Z) : bool := existsb (Z.eqb x) l.

(** [l.index(x)]: the first position of [x]; [None] is ValueError. *)
Fixpoint py_index (l : list Z) (x : Z) : option Z :=
  match l with
  | [] => None
  | y :: l' => if y =? x then Some 0
               else option_map Z.succ (py_index l' x)
  end.

(** [l[i]]: a negative [i] counts from the end; [None] is IndexError. *)
Definition py_getitem (l : list Z) (i : Z) : option Z :=
  if (0 <=? i) && (i <? len l) then nth_error l (Z.to_nat i)
  else if (- len l <=? i) && (i <? 0) then nth_error l (Z.to_nat (len l + i))
  else None.

Fixpoint replace_nth (n : nat) (v : Z) (l : list Z) : list Z :=
  match l, n with
  | [], _ => []
  | _ :: l', O => v :: l'
  | y :: l', S n' => y :: replace_nth n' v l'
  end.

(** [l[i] = v] *)
Definition py_setitem (l : list Z) (i : Z) (v : Z) : option (list Z) :=
  if (0 <=? i) && (i <? len l) then Some (replace_nth (Z.to_nat i) v l)
  else if (- len l <=? i) && (i <? 0)
       then Some (replace_nth (Z.to_nat (len l + i)) v l)
  else None.

Definition index_of (l : list Z) (x : Z) : M Z :=
  match py_index l x with Some i => ret i | None => raise ValueError end.

Definition getitem (l : list Z) (i : Z) : M Z :=
  match py_getitem l i with Some v => ret v | None => raise IndexError end.

Definition setitem_queue (i : Z) (v : Z) : M unit :=
  q <- gets playback_queue_ids ;;
  match py_setitem q i v with
  | Some q' => modify (with_playback_queue_ids q')
  | None => raise IndexError
  end.

(** Truth value of a list, of a string, of an optional int (None and 0 are
    false). *)
Definition nonempty (l : list Z) : bool :=
  match l with [] => false | _ => true end.

Definition str_truthy (s : string) : bool :=
  match s with EmptyString => false | _ => true end.

Definition id_truthy (o : option Z) : bool :=
  match o with Some v => negb (v =? 0) | None => false end.

(** [track and track.filepath and os.path.exists(track.filepath)] *)
Definition playable (w : World) (track : option Track) : bool :=
  match track with
  | Some t => str_truthy (filepath t) && path_exists w (filepath t)
  | None => false
  end.

(** ** PlaybackManager: the methods *)

Section Methods.

Variable w : World.

(** [stop] *)
Definition stop : M unit :=
  player player_stop ;;
  modify (with_current_track None) ;;
  modify (with_current_queue_index (-1)) ;;
  emit (track_changed None).

(** The two branches shared by [set_playlist] and [play_track_at_index]:
    load and play the track, or report it and schedule [play_next]. *)
Definition load_and_play (track : Track) : M unit :=
  modify (with_current_track (Some track)) ;;
  modify (with_playing_next_automatically true) ;;
  player (player_setSource (filepath track)) ;;
  player player_play ;;
  t <- gets current_track ;;
  emit (track_changed t) ;;
  modify (with_playing_next_automatically false).

Definition report_missing (track_id : Z) (track : option Track) : M unit :=
  emit (playback_error (TrackNotFound track_id (option_map filepath track))) ;;
  singleShot 50.

(** [track = database.get_track_by_id(track_id)] and the [if]/[else] on
    it, the same text in [set_playlist] and in [play_track_at_index]. *)
Definition start_or_skip (track_id : Z) : M unit :=
  let track := get_track_by_id w track_id in
  match track with
  | Some t => if playable w track then load_and_play t
              else report_missing track_id track
  | None => report_missing track_id track
  end.

(** [set_playlist] *)
Definition set_playlist (track_ids : list Z) (playlist_mode : Z)
    (start_track_id : option Z) : M unit :=
  if negb (nonempty track_ids) then ret tt
  else
    modify (with_playback_queue_ids track_ids) ;;
    modify (with_playback_mode playlist_mode) ;;
    q <- gets playback_queue_ids ;;
    match start_track_id with
    | Some st =>
        if py_in st q
        then (i <- index_of q st ;; modify (with_current_queue_index i))
        else modify (with_current_queue_index 0)
    | None => modify (with_current_queue_index 0)
    end ;;
    i <- gets current_queue_index ;;
    track_id <- getitem q i ;;
    start_or_skip track_id.

(** [play_track_at_index] *)
Definition play_track_at_index (index : Z) : M unit :=
  q <- gets playback_queue_ids ;;
  if (0 <=? index) && (index <? len q) then
    modify (with_current_queue_index index) ;;
    i <- gets current_queue_index ;;
    track_id <- getitem q i ;;
    start_or_skip track_id
  else stop.

(** [play] *)
Definition play : M unit :=
  if PlaybackState.eqb (player_playbackState w) PlaybackState.PAUSED then
    player player_play
  else
    i <- gets current_queue_index ;;
    t <- gets current_track ;;
    q <- gets playback_queue_ids ;;
    match negb (i =? -1), t with
    | true, Some _ => player player_play ;; emit (track_changed t)
    | _, _ => if nonempty q then play_track_at_index 0 else ret tt
    end.

(** [pause] *)
Definition pause : M unit :=
  if PlaybackState.eqb (player_playbackState w) PlaybackState.PLAYING
  then player player_pause else ret tt.

(** [toggle_play_pause] *)
Definition toggle_play_pause : M unit :=
  if PlaybackState.eqb (player_playbackState w) PlaybackState.PLAYING
  then pause else play.

(** [if x != -1: play_track_at_index(x); player.play() / else: stop()], the
    tail of [play_next] and of [play_previous]. *)
Definition play_unless_none (index : Z) : M unit :=
  if negb (index =? -1)
  then play_track_at_index index ;; player player_play
  else stop.

Definition wrapping (mode : Z) : bool :=
  (mode =? PlaybackMode.REPEAT_ALL) || (mode =? PlaybackMode.SHUFFLE).

(** [play_next] *)
Definition play_next : M unit :=
  q <- gets playback_queue_ids ;;
  if negb (nonempty q) then stop
  else
    current_index <- gets current_queue_index ;;
    mode <- gets playback_mode ;;
    let next_index :=
      if mode =? PlaybackMode.REPEAT_ONE then current_index
      else current_index + 1 in
    if next_index >=? len q then
      if wrapping mode then play_unless_none 0
      else stop
    else play_unless_none next_index.

(** [play_previous] *)
Definition play_previous : M unit :=
  if player_position w >? 3000 then player (player_setPosition 0)
  else
    q <- gets playback_queue_ids ;;
    if negb (nonempty q) then stop
    else
      current_index <- gets current_queue_index ;;
      mode <- gets playback_mode ;;
      let prev_index :=
        if mode =? PlaybackMode.REPEAT_ONE then current_index
        else current_index - 1 in
      if prev_index <? 0 then
        if wrapping mode then play_unless_none (len q - 1)
        else if len q >? 0 then play_unless_none 0
        else stop
      else play_unless_none prev_index.

(** [_shuffle_queue] *)
Definition _shuffle_queue : M unit :=
  q <- gets playback_queue_ids ;;
  if len q >? 1 then
    i <- gets current_queue_index ;;
    current_id <- (if negb (i =? -1)
                   then (v <- getitem q i ;; ret (Some v))
                   else ret None) ;;
    modify (with_playback_queue_ids (random_shuffle w q)) ;;
    q <- gets playback_queue_ids ;;
    match current_id with
    | Some c =>
        if id_truthy current_id && py_in c q then
          current_shuffled_index <- index_of q c ;;
          a <- getitem q current_shuffled_index ;;
          b <- getitem q 0 ;;
          setitem_queue 0 a ;;
          setitem_queue current_shuffled_index b ;;
          modify (with_current_queue_index 0)
        else if nonempty q then modify (with_current_queue_index 0)
        else modify (with_current_queue_index (-1))
    | None =>
        if nonempty q then modify (with_current_queue_index 0)
        else modify (with_current_queue_index (-1))
    end
  else
    modify (with_current_queue_index (if nonempty q then 0 else -1)).

(** [set_playback_mode] *)
Definition set_playback_mode (mode : Z) : M unit :=
  old <- gets playback_mode ;;
  if mode =? old then ret tt
  else
    modify (with_playback_mode mode) ;;
    i <- gets current_queue_index ;;
    q <- gets playback_queue_ids ;;
    current_id_playing <- (if negb (i =? -1)
                           then (v <- getitem q i ;; ret (Some v))
                           else ret None) ;;
    (if mode =? PlaybackMode.SHUFFLE then
       orig <- gets current_playlist_ids ;;
       modify (with_playback_queue_ids orig) ;;
       _shuffle_queue
     else
       orig <- gets current_playlist_ids ;;
       modify (with_playback_queue_ids orig)) ;;
    q <- gets playback_queue_ids ;;
    match current_id_playing with
    | Some c =>
        if id_truthy current_id_playing && py_in c q then
          try_except_ValueError
            (k <- index_of q c ;; modify (with_current_queue_index k))
            (q <- gets playback_queue_ids ;;
             modify (with_current_queue_index (if nonempty q then 0 else -1)))
        else if nonempty q then modify (with_current_queue_index 0)
        else modify (with_current_queue_index (-1))
    | None =>
        if nonempty q then modify (with_current_queue_index 0)
        else modify (with_current_queue_index (-1))
    end ;;
    q <- gets playback_queue_ids ;;
    emit (queue_changed q) ;;
    m <- gets playback_mode ;;
    emit (mode_changed m).

(** [play_track_by_id] *)
Definition play_track_by_id (track_id : Z) : M unit :=
  q <- gets playback_queue_ids ;;
  orig <- gets current_playlist_ids ;;
  if py_in track_id q then
    index <- index_of q track_id ;;
    play_track_at_index index
  else if py_in track_id orig then
    try_except_ValueError
      (original_index <- index_of orig track_id ;;
       mode <- gets playback_mode ;;
       if mode =? PlaybackMode.SHUFFLE then
         orig <- gets current_playlist_ids ;;
         modify (with_playback_queue_ids orig) ;;
         _shuffle_queue ;;
         try_except_ValueError
           (q <- gets playback_queue_ids ;;
            k <- index_of q track_id ;;
            modify (with_current_queue_index k) ;;
            i <- gets current_queue_index ;;
            play_track_at_index i)
           play_next
       else
         orig <- gets current_playlist_ids ;;
         modify (with_playback_queue_ids orig) ;;
         modify (with_current_queue_index original_index) ;;
         i <- gets current_queue_index ;;
         play_track_at_index i)
      play_next
  else ret tt.

(** [play_track] *)
Definition play_track (track : option Track) : M unit :=
  match track with
  | Some t =>
      match id t with
      | Some tid =>
          if nonempty (all_track_ids w)
          then set_playlist (all_track_ids w) PlaybackMode.NORMAL (Some tid)
          else set_playlist [tid] PlaybackMode.NORMAL (Some tid)
      | None => emit (playback_error InvalidTrackObject)
      end
  | None => emit (playback_error InvalidTrackObject)
  end.

(** ** Signal handlers *)

(** [on_state_changed] *)
Definition on_state_changed (state : PlaybackState) : M unit :=
  emit (state_changed state).

(** [on_error]: the skip to the next track is commented out in the source. *)
Definition on_error (error_string : string) : M unit :=
  emit (playback_error (PlayerError error_string)).

(** [on_media_status_changed] *)
Definition on_media_status_changed (status : MediaStatus) : M unit :=
  flag <- gets _playing_next_automatically ;;
  match status with
  | EndOfMedia =>
      if negb flag then
        modify (with_playing_next_automatically true) ;;
        singleShot 100
      else ret tt
  | InvalidMedia =>
      emit (playback_error (InvalidMediaFile (player_source w))) ;;
      singleShot 50
  | LoadedMedia => player player_play
  | _ => ret tt
  end.

End Methods.

(** ** The event loop

    Everything that can happen to the object: a call of a public method, a
    notification of the player, or a pending [singleShot] timer running out
    (which calls [play_next]).  The world is read afresh at every event. *)

Inductive Event :=
| Call_set_playlist (track_ids : list Z) (playlist_mode : Z)
                    (start_track_id : option Z)
| Call_play_track_by_id (track_id : Z)
| Call_play_track_at_index (index : Z)
| Call_play
| Call_pause
| Call_toggle_play_pause
| Call_stop
| Call_play_next
| Call_play_previous
| Call_set_playback_mode (mode : Z)
| Call_play_track (track : option Track)
| Notify_state_changed (state : PlaybackState)
| Notify_error (error_string : string)
| Notify_media_status (status : MediaStatus)
| Timeout (k : nat).

Fixpoint remove_nth {A} (k : nat) (l : list A) : list A :=
  match l, k with
  | [], _ => []
  | _ :: l', O => l'
  | x :: l', S k' => x :: remove_nth k' l'
  end.

(** The [k]-th pending timer fires: it leaves the list and [play_next] runs.
    Nothing happens when there is no such timer. *)
Definition fire_timer (w : World) (k : nat) : M unit :=
  ts <- gets pending_timers ;;
  match nth_error ts k with
  | Some _ => modify (with_pending_timers (remove_nth k ts)) ;; play_next w
  | None => ret tt
  end.

Definition handle (w : World) (ev : Event) : M unit :=
  match ev with
  | Call_set_playlist ids mode start => set_playlist w ids mode start
  | Call_play_track_by_id i => play_track_by_id w i
  | Call_play_track_at_index i => play_track_at_index w i
  | Call_play => play w
  | Call_pause => pause w
  | Call_toggle_play_pause => toggle_play_pause w
  | Call_stop => stop
  | Call_play_next => play_next w
  | Call_play_previous => play_previous w
  | Call_set_playback_mode m => set_playback_mode w m
  | Call_play_track t => play_track w t
  | Notify_state_changed st => on_state_changed st
  | Notify_error e => on_error e
  | Notify_media_status st => on_media_status_changed w st
  | Timeout k => fire_timer w k
  end.

(** A history: the events in order, each with the world it saw.  An exception
    ends the event it was raised in and leaves the object as it was then. *)
Fixpoint run (history : list (World * Event)) (s : PlaybackManager)
  : PlaybackManager :=
  match history with
  | [] => s
  | (w, ev) :: rest => run rest (final_state (handle w ev s))
  end.

(** Let the pending timers run out, oldest first, at most [fuel] of them. *)
Fixpoint drain_timers (w : World) (fuel : nat) (s : PlaybackManager)
  : PlaybackManager :=
  match fuel with
  | O => s
  | S fuel' =>
      match pending_timers s with
      | [] => s
      | _ :: _ => drain_timers w fuel' (final_state (fire_timer w 0 s))
      end
  end.

(** ** Observations on a state *)

(** Position is "none" or an index of the queue. *)
Definition position_ok (s : PlaybackManager) : Prop :=
  current_queue_index s = -1 \/
  0 <= current_queue_index s < len (playback_queue_ids s).


Definition is_queue_or_mode_changed (e : Effect) : bool :=
  match e with
  | Emit (queue_changed _) | Emit (mode_changed _) => true
  | _ => false
  end.

Definition is_track_changed (e : Effect) : bool :=
  match e with Emit (track_changed _) => true | _ => false end.

(** What an outcome added to the log of a state. *)
Definition added (s s' : PlaybackManager) : list Effect :=
  skipn (List.length (effects s)) (effects s').

(** ** Sample worlds and queues *)

Definition sample_track (i : Z) : Track :=
  {| id := Some i; filepath := "song.mp3"; title := "Song" |}.

(** Every track is in the database and on disk; the shuffle reverses. *)
Definition world_all_present : World :=
  {| get_track_by_id := fun i => Some (sample_track i);
     all_track_ids := [];
     path_exists := fun _ => true;
     random_shuffle := @rev Z;
     player_playbackState := PlayingState;
     player_position := 0;
     player_source := "song.mp3" |}.


(** As [world_all_present], with three tracks in the database. *)
Definition world_with_library : World :=
  {| get_track_by_id := fun i => Some (sample_track i);
     all_track_ids := [4; 9; 6];
     path_exists := fun _ => true;
     random_shuffle := @rev Z;
     player_playbackState := PlayingState;
     player_position := 0;
     player_source := "song.mp3" |}.

(** The player is five seconds into the track. *)
Definition world_five_seconds_in : World :=
  {| get_track_by_id := fun i => Some (sample_track i);
     all_track_ids := [];
     path_exists := fun _ => true;
     random_shuffle := @rev Z;
     player_playbackState := PlayingState;
     player_position := 5000;
     player_source := "song.mp3" |}.

(** ** PlaybackManager.set_volume

    The value stored in [self.volume]: [max(0, min(100, volume))]. *)
Definition set_volume (volume : Z) : Z := Z.max 0 (Z.min 100 volume).

(** ** Times as text: utils/formatters.py and ui/player_controls.py *)

Definition digit (d : Z) : Ascii.ascii :=
  Ascii.ascii_of_nat (48 + Z.to_nat d).

(** The decimal digits of a non-negative [n] in front of [acc]. *)
Fixpoint digits (fuel : nat) (n : Z) (acc : string) : string :=
  match fuel with
  | O => acc
  | S fuel' =>
      let acc' := String (digit (n mod 10)) acc in
      if n <? 10 then acc' else digits fuel' (n / 10) acc'
  end.

(** [str(n)] of an int. *)
Definition py_str (n : Z) : string :=
  if n <? 0 then String "-" (digits (S (Z.to_nat (- n))) (- n) EmptyString)
  else digits (S (Z.to_nat n)) n EmptyString.

(** [f"{n:02d}"] (and [f"{n:02}"]) of an int: zeros on the left up to two
    characters; a negative number has two already. *)
Definition py_format_02d (n : Z) : string :=
  if (String.length (py_str n) <? 2)%nat then String "0" (py_str n)
  else py_str n.

(** [format_duration_ms] of utils/formatters.py; [//] and [%] round down. *)
Definition format_duration_ms (ms : Z) : string :=
  let ms := if ms <? 0 then 0 else ms in
  let total_seconds := ms / 1000 in
  let minutes := total_seconds / 60 in
  let seconds := total_seconds mod 60 in
  (py_str minutes ++ String ":" (py_format_02d seconds))%string.

(** [PlayerControls._format_time] of ui/player_controls.py. *)
Definition _format_time (milliseconds : Z) : string :=
  let seconds := milliseconds / 1000 in
  let minutes := seconds / 60 in
  let seconds := seconds mod 60 in
  (py_format_02d minutes ++ String ":" (py_format_02d seconds))%string.

(** ** YouTubeDownloader._sanitize_filename

    A Python [str] as the list of its code points, so that [len] counts what
    Python counts. *)

(** The character class of the regular expression given to [re.sub]:
    backslash, slash, star, question mark, colon, double quote, less,
    greater, bar. *)
Definition invalid_filename_char (c : N) : bool :=
  existsb (N.eqb c) [92; 47; 42; 63; 58; 34; 60; 62; 124]%N.

Definition _sanitize_filename (filename : list N) : list N :=
  let filename := filter (fun c => negb (invalid_filename_char c)) filename in
  if (100 <? List.length filename)%nat
  then firstn 97 filename ++ [46; 46; 46]%N
  else filename.

(** * Properties *)

(** ** Python lists *)

Lemma len_nonneg (l : list Z) : 0 <= len l.
Proof. unfold len. lia. Qed.

Lemma len_cons (x : Z) (l : list Z) : len (x :: l) = len l + 1.
Proof. unfold len. simpl List.length. lia. Qed.

Lemma nonempty_len (l : list Z) : nonempty l = true <-> 0 < len l.
Proof.
  destruct l as [|x l]; simpl.
  - split; [discriminate | unfold len; simpl; lia].
  - rewrite len_cons. pose proof (len_nonneg l). split; [lia | reflexivity].
Qed.

Lemma nonempty_false (l : list Z) : nonempty l = false <-> l = [].
Proof. destruct l; simpl; split; congruence. Qed.

Lemma py_getitem_in_range (l : list Z) (i : Z) :
  0 <= i < len l -> exists v, py_getitem l i = Some v /\ In v l.
Proof.
  intros Hi. unfold py_getitem.
  replace ((0 <=? i) && (i <? len l)) with true
    by (symmetry; apply andb_true_iff; split; [apply Z.leb_le | apply Z.ltb_lt]; lia).
  destruct (nth_error l (Z.to_nat i)) as [v|] eqn:E.
  - exists v. split; [reflexivity | eapply nth_error_In; eassumption].
  - apply nth_error_None in E. unfold len in Hi. lia.
Qed.

Lemma py_index_in (l : list Z) (x : Z) :
  py_in x l = true -> exists i, py_index l x = Some i /\ 0 <= i < len l.
Proof.
  induction l as [|y l IH]; simpl; [discriminate|].
  intros H. rewrite len_cons. pose proof (len_nonneg l).
  destruct (y =? x) eqn:E.
  - exists 0. split; [reflexivity | lia].
  - rewrite Z.eqb_sym, E in H. simpl in H.
    destruct (IH H) as (i & -> & Hi). exists (Z.succ i). split; [reflexivity | lia].
Qed.

Lemma py_index_bounds (l : list Z) (x i : Z) :
  py_index l x = Some i -> 0 <= i < len l.
Proof.
  revert i. induction l as [|y l IH]; simpl; [discriminate|].
  intros i. rewrite len_cons. pose proof (len_nonneg l).
  destruct (y =? x).
  - intros [= <-]. lia.
  - destruct (py_index l x) as [j|]; simpl; [|discriminate].
    intros [= <-]. specialize (IH j eq_refl). lia.
Qed.

Lemma replace_nth_length (n : nat) (v : Z) (l : list Z) :
  List.length (replace_nth n v l) = List.length l.
Proof.
  revert n. induction l as [|y l IH]; intros [|n]; simpl; auto.
Qed.

Lemma py_setitem_len (l l' : list Z) (i v : Z) :
  py_setitem l i v = Some l' -> len l' = len l.
Proof.
  unfold py_setitem, len.
  destruct ((0 <=? i) && (i <? Z.of_nat (List.length l)));
    [|destruct ((- Z.of_nat (List.length l) <=? i) && (i <? 0))];
    intros [= <-]; now rewrite ?replace_nth_length.
Qed.

(** ** The log only grows *)

Lemma added_app (s s' : PlaybackManager) (d : list Effect) :
  effects s' = effects s ++ d -> added s s' = d.
Proof.
  intros H. unfold added. rewrite H.
  rewrite skipn_app, skipn_all, Nat.sub_diag. reflexivity.
Qed.

Lemma added_same (s : PlaybackManager) : added s s = [].
Proof. apply added_app. now rewrite app_nil_r. Qed.

(** Unfold one layer of the monad and of the primitive actions. *)
Ltac monad :=
  cbv [bind ret gets modify raise emit player singleShot
       with_current_track with_playback_queue_ids with_current_queue_index
       with_playback_mode with_playing_next_automatically
       with_pending_timers with_effects final_state returned];
  cbn [current_track current_playlist_ids playback_queue_ids
       current_queue_index playback_mode _playing_next_automatically
       pending_timers effects].

(** ** stop *)

Lemma stop_eq (s : PlaybackManager) :
  stop s =
  Returned tt
    (mkPM None (current_playlist_ids s) (playback_queue_ids s) (-1)
          (playback_mode s) (_playing_next_automatically s) (pending_timers s)
          (effects s ++ [Player player_stop; Emit (track_changed None)])).
Proof. unfold stop. monad. now rewrite <- app_assoc. Qed.

(** C4. [set_playlist] with an empty list of track ids returns at once: the
    object is exactly as it was (queue, index, mode and everything else), and
    nothing was emitted, so no [track_changed]. *)
Theorem set_playlist_empty_is_noop :
  forall (w : World) (mode : Z) (start : option Z) (s : PlaybackManager),
    set_playlist w [] mode start s = Returned tt s /\
    added s (final_state (set_playlist w [] mode start s)) = [].
Proof.
  intros w mode start s. split; [reflexivity|].
  simpl. apply added_same.
Qed.

(** C8. For an index outside [0 <= index < len(queue)],
    [play_track_at_index] is [stop]: the player is stopped and nothing is
    loaded or played, the current track is cleared, the index becomes -1 and
    [track_changed(None)] is emitted. *)
Theorem play_track_at_index_out_of_range :
  forall (w : World) (index : Z) (s : PlaybackManager),
    index < 0 \/ len (playback_queue_ids s) <= index ->
    play_track_at_index w index s = stop s /\
    exists s', play_track_at_index w index s = Returned tt s' /\
      current_track s' = None /\
      current_queue_index s' = -1 /\
      playback_queue_ids s' = playback_queue_ids s /\
      playback_mode s' = playback_mode s /\
      pending_timers s' = pending_timers s /\
      added s s' = [Player player_stop; Emit (track_changed None)].
Proof.
  intros w index s Hout.
  assert (E : play_track_at_index w index s = stop s).
  { unfold play_track_at_index. monad.
    replace ((0 <=? index) && (index <? len (playback_queue_ids s))) with false;
      [reflexivity|].
    symmetry. apply andb_false_iff.
    destruct Hout; [left; apply Z.leb_gt | right; apply Z.ltb_ge]; lia. }
  split; [exact E|]. rewrite E, stop_eq.
  eexists. split; [reflexivity|]. cbn.
  repeat split. now apply added_app.
Qed.

Lemma play_track_at_index_out_of_range_witness :
  let s := run [(world_all_present,
                 Call_set_playlist [1; 2; 3] PlaybackMode.NORMAL None)] init in
  len (playback_queue_ids s) <= 3 /\
  current_queue_index (final_state (play_track_at_index world_all_present 3 s)) = -1.
Proof.
  intros s. split; [vm_compute; discriminate|].
  destruct (@play_track_at_index_out_of_range world_all_present 3 s) as [_ (s' & E & _ & Hi & _)].
  - right. vm_compute. discriminate.
  - rewrite E. exact Hi.
Defined.

(** ** Which signals a method can emit

    [only P m]: whatever [m] does, it only appends to the log, and only
    effects that satisfy [P]. *)

Definition only (P : Effect -> bool) {A} (m : M A) : Prop :=
  forall s, exists d,
    effects (final_state (m s)) = effects s ++ d /\ forallb P d = true.

Section Only.

Variable P : Effect -> bool.

Lemma only_ret {A} (a : A) : only P (ret a).
Proof. intros s. exists []. simpl. now rewrite app_nil_r. Qed.

Lemma only_raise {A} (e : Exception) : only P (@raise A e).
Proof. intros s. exists []. simpl. now rewrite app_nil_r. Qed.

Lemma only_gets {A} (f : PlaybackManager -> A) : only P (gets f).
Proof. intros s. exists []. simpl. now rewrite app_nil_r. Qed.

Lemma only_modify (f : PlaybackManager -> PlaybackManager) :
  (forall s, effects (f s) = effects s) -> only P (modify f).
Proof. intros H s. exists []. simpl. now rewrite H, app_nil_r. Qed.

Lemma only_emit (sig : Signal) : P (Emit sig) = true -> only P (emit sig).
Proof. intros H s. exists [Emit sig]. simpl. now rewrite H. Qed.

Lemma only_player (c : PlayerCall) : P (Player c) = true -> only P (player c).
Proof. intros H s. exists [Player c]. simpl. now rewrite H. Qed.

Lemma only_singleShot (d : Z) :
  P (SingleShot d) = true -> only P (singleShot d).
Proof. intros H s. exists [SingleShot d]. simpl. now rewrite H. Qed.

Lemma only_bind {A B} (m : M A) (k : A -> M B) :
  only P m -> (forall a, only P (k a)) -> only P (bind m k).
Proof.
  intros Hm Hk s. unfold bind.
  destruct (Hm s) as (d1 & E1 & F1).
  destruct (m s) as [a s1|e s1]; simpl in E1.
  - destruct (Hk a s1) as (d2 & E2 & F2).
    exists (d1 ++ d2). rewrite E2, E1, app_assoc, forallb_app, F1, F2. auto.
  - exists d1. simpl. auto.
Qed.

Lemma only_try {A} (body handler : M A) :
  only P body -> only P handler -> only P (try_except_ValueError body handler).
Proof.
  intros Hb Hh s. unfold try_except_ValueError.
  destruct (Hb s) as (d1 & E1 & F1).
  destruct (body s) as [a s1|[|] s1]; simpl in E1; try solve [exists d1; simpl; auto].
  destruct (Hh s1) as (d2 & E2 & F2).
  exists (d1 ++ d2). rewrite E2, E1, app_assoc, forallb_app, F1, F2. auto.
Qed.

End Only.

(** Walk through a method body, one statement at a time. *)
Ltac only_step :=
  first
    [ apply only_ret | apply only_raise | apply only_gets
    | apply only_modify; intros; reflexivity
    | apply only_emit; reflexivity
    | apply only_player; reflexivity
    | apply only_singleShot; reflexivity
    | apply only_bind; [|intros]
    | apply only_try
    | match goal with
      | |- only _ (if ?c then _ else _) => destruct c
      | |- only _ (match ?x with _ => _ end) => destruct x
      | |- only _ (let _ := _ in _) => cbv zeta
      end ].

Ltac only_walk := repeat only_step.

Create HintDb only_db.

Section OnlyMethods.

Variable w : World.
Variable P : Effect -> bool.

Hypothesis P_track_changed : forall t, P (Emit (track_changed t)) = true.
Hypothesis P_playback_error : forall m, P (Emit (playback_error m)) = true.
Hypothesis P_state_changed : forall st, P (Emit (state_changed st)) = true.
Hypothesis P_player : forall c, P (Player c) = true.
Hypothesis P_singleShot : forall d, P (SingleShot d) = true.

Ltac leaf :=
  first [ apply only_emit; auto | apply only_player; auto
        | apply only_singleShot; auto ].

Ltac walk := repeat first [leaf | only_step].

Lemma only_stop : only P stop.
Proof. unfold stop. walk. Qed.

Lemma only_load_and_play (t : Track) : only P (load_and_play t).
Proof. unfold load_and_play. walk. Qed.

Lemma only_report_missing (i : Z) (t : option Track) :
  only P (report_missing i t).
Proof. unfold report_missing. walk. Qed.

Lemma only_index_of (l : list Z) (x : Z) : only P (index_of l x).
Proof. unfold index_of. walk. Qed.

Lemma only_getitem (l : list Z) (i : Z) : only P (getitem l i).
Proof. unfold getitem. walk. Qed.

Lemma only_setitem_queue (i v : Z) : only P (setitem_queue i v).
Proof. unfold setitem_queue. walk. Qed.

Lemma only_start_or_skip (i : Z) : only P (start_or_skip w i).
Proof. unfold start_or_skip. walk; auto using only_load_and_play, only_report_missing. Qed.

Hint Resolve only_stop only_load_and_play only_report_missing only_index_of
  only_getitem only_setitem_queue only_start_or_skip : only_db.

Ltac walk' := repeat first [solve [auto with only_db] | leaf | only_step].

Lemma only_set_playlist (ids : list Z) (mode : Z) (start : option Z) :
  only P (set_playlist w ids mode start).
Proof. unfold set_playlist. walk'. Qed.

Lemma only_play_track_at_index (i : Z) : only P (play_track_at_index w i).
Proof. unfold play_track_at_index. walk'. Qed.

Hint Resolve only_set_playlist only_play_track_at_index : only_db.

Lemma only_play : only P (play w).
Proof. unfold play. walk'. Qed.

Lemma only_pause : only P (pause w).
Proof. unfold pause. walk'. Qed.

Hint Resolve only_play only_pause : only_db.

Lemma only_toggle_play_pause : only P (toggle_play_pause w).
Proof. unfold toggle_play_pause. walk'. Qed.

Lemma only_play_unless_none (i : Z) : only P (play_unless_none w i).
Proof. unfold play_unless_none. walk'. Qed.

Hint Resolve only_play_unless_none : only_db.

Lemma only_play_next : only P (play_next w).
Proof. unfold play_next. walk'. Qed.

Lemma only_play_previous : only P (play_previous w).
Proof. unfold play_previous. walk'. Qed.

Lemma only__shuffle_queue : only P (_shuffle_queue w).
Proof. unfold _shuffle_queue. walk'. Qed.

Hint Resolve only_play_next only__shuffle_queue : only_db.

Lemma only_play_track_by_id (i : Z) : only P (play_track_by_id w i).
Proof. unfold play_track_by_id. walk'. Qed.

Lemma only_play_track (t : option Track) : only P (play_track w t).
Proof. unfold play_track. walk'. Qed.

Lemma only_on_media_status_changed (st : MediaStatus) :
  only P (on_media_status_changed w st).
Proof. unfold on_media_status_changed. walk'. Qed.

Lemma only_fire_timer (k : nat) : only P (fire_timer w k).
Proof. unfold fire_timer. walk'. Qed.

(** Every event but a call of [set_playback_mode]. *)
Lemma only_handle (ev : Event) :
  (forall m, ev <> Call_set_playback_mode m) -> only P (handle w ev).
Proof.
  intros H. destruct ev; simpl;
    try solve [ auto using only_set_playlist, only_play_track_by_id,
                  only_play_track_at_index, only_play, only_pause,
                  only_toggle_play_pause, only_stop, only_play_next,
                  only_play_previous, only_play_track,
                  only_on_media_status_changed, only_fire_timer ].
  - now destruct (H mode).
  - unfold on_state_changed. walk.
  - unfold on_error. walk.
Qed.

End OnlyMethods.

(** ** Closed forms of the straight-line methods *)

(** The object after a track was loaded and started. *)
Definition after_load (t : Track) (s : PlaybackManager) : PlaybackManager :=
  mkPM (Some t) (current_playlist_ids s) (playback_queue_ids s)
       (current_queue_index s) (playback_mode s) false (pending_timers s)
       (effects s ++ [Player (player_setSource (filepath t)); Player player_play;
                      Emit (track_changed (Some t))]).

(** The object after a track was reported missing and [play_next] was
    scheduled. *)
Definition after_report (track_id : Z) (track : option Track)
    (s : PlaybackManager) : PlaybackManager :=
  mkPM (current_track s) (current_playlist_ids s) (playback_queue_ids s)
       (current_queue_index s) (playback_mode s)
       (_playing_next_automatically s) (pending_timers s ++ [50])
       (effects s ++
          [Emit (playback_error
                   (TrackNotFound track_id (option_map filepath track)));
           SingleShot 50]).

Definition after_start_or_skip (w : World) (track_id : Z)
    (s : PlaybackManager) : PlaybackManager :=
  if playable w (get_track_by_id w track_id) then
    match get_track_by_id w track_id with
    | Some t => after_load t s
    | None => s
    end
  else after_report track_id (get_track_by_id w track_id) s.

Lemma load_and_play_eq (t : Track) (s : PlaybackManager) :
  load_and_play t s = Returned tt (after_load t s).
Proof.
  unfold load_and_play, after_load. monad.
  now rewrite <- !app_assoc.
Qed.

Lemma report_missing_eq (i : Z) (t : option Track) (s : PlaybackManager) :
  report_missing i t s = Returned tt (after_report i t s).
Proof.
  unfold report_missing, after_report. monad.
  now rewrite <- !app_assoc.
Qed.

Lemma start_or_skip_eq (w : World) (i : Z) (s : PlaybackManager) :
  start_or_skip w i s = Returned tt (after_start_or_skip w i s).
Proof.
  unfold start_or_skip, after_start_or_skip.
  destruct (get_track_by_id w i) as [t|].
  - destruct (playable w (Some t)); [apply load_and_play_eq | apply report_missing_eq].
  - simpl. apply report_missing_eq.
Qed.

Lemma play_track_at_index_in_range (w : World) (i : Z) (s : PlaybackManager) :
  0 <= i < len (playback_queue_ids s) ->
  exists track_id,
    py_getitem (playback_queue_ids s) i = Some track_id /\
    play_track_at_index w i s =
    Returned tt (after_start_or_skip w track_id (with_current_queue_index i s)).
Proof.
  intros Hi. destruct (py_getitem_in_range _ Hi) as (v & Hv & _).
  exists v. split; [exact Hv|].
  unfold play_track_at_index. monad.
  replace ((0 <=? i) && (i <? len (playback_queue_ids s))) with true
    by (symmetry; apply andb_true_iff; split; [apply Z.leb_le | apply Z.ltb_lt]; lia).
  unfold getitem. rewrite Hv. monad. apply start_or_skip_eq.
Qed.

(** The index [set_playlist] starts from. *)
Definition start_index (ids : list Z) (start : option Z) : Z :=
  match start with
  | Some st =>
      if py_in st ids
      then match py_index ids st with Some i => i | None => 0 end
      else 0
  | None => 0
  end.

Lemma start_index_in_range (ids : list Z) (start : option Z) :
  ids <> [] -> 0 <= start_index ids start < len ids.
Proof.
  intros Hne.
  assert (H0 : 0 < len ids).
  { apply nonempty_len. destruct ids; [congruence | reflexivity]. }
  unfold start_index. destruct start as [st|]; [|lia].
  destruct (py_in st ids) eqn:E; [|lia].
  destruct (py_index_in _ _ E) as (i & -> & Hi). exact Hi.
Qed.

Lemma set_playlist_nonempty (w : World) (ids : list Z) (mode : Z)
    (start : option Z) (s : PlaybackManager) :
  ids <> [] ->
  exists track_id,
    py_getitem ids (start_index ids start) = Some track_id /\
    set_playlist w ids mode start s =
    Returned tt
      (after_start_or_skip w track_id
         (with_current_queue_index (start_index ids start)
            (with_playback_mode mode (with_playback_queue_ids ids s)))).
Proof.
  intros Hne.
  destruct (py_getitem_in_range _ (start_index_in_range start Hne))
    as (v & Hv & _).
  exists v. split; [exact Hv|].
  unfold set_playlist.
  replace (nonempty ids) with true by (destruct ids; [congruence | reflexivity]).
  cbn [negb]. unfold start_index in *.
  destruct start as [st|].
  - destruct (py_in st ids) eqn:E.
    + destruct (py_index_in _ _ E) as (i & Ei & Hi). rewrite Ei in Hv.
      monad. rewrite E. unfold index_of. rewrite Ei. monad.
      unfold getitem. rewrite Hv. monad. apply start_or_skip_eq.
    + monad. rewrite E. monad.
      unfold getitem. rewrite Hv. monad. apply start_or_skip_eq.
  - monad. unfold getitem. rewrite Hv. monad. apply start_or_skip_eq.
Qed.

(** The signals in a stretch of the log. *)
Definition signals (l : list Effect) : list Signal :=
  flat_map (fun e => match e with Emit sig => [sig] | _ => [] end) l.

Definition not_queue_or_mode_changed (e : Effect) : bool :=
  negb (is_queue_or_mode_changed e).

Lemma filter_none {A} (f : A -> bool) (l : list A) :
  forallb (fun x => negb (f x)) l = true -> filter f l = [].
Proof.
  induction l as [|x l IH]; simpl; [reflexivity|].
  intros H. apply andb_true_iff in H as [Hx Hl].
  destruct (f x); [discriminate | auto].
Qed.

(** C10. For a non-empty list of track ids [set_playlist] replaces the queue
    and the mode, and what it emits is one [track_changed] (the track plays)
    or one [playback_error] (it does not): no [queue_changed], no
    [mode_changed].  Nor does any other event emit them, a call of
    [set_playback_mode] apart. *)
Theorem set_playlist_emits_no_queue_or_mode_change :
  forall (w : World) (ids : list Z) (mode : Z) (start : option Z)
         (s : PlaybackManager),
    ids <> [] ->
    (exists s', set_playlist w ids mode start s = Returned tt s' /\
       playback_queue_ids s' = ids /\
       playback_mode s' = mode /\
       ((exists t, signals (added s s') = [track_changed (Some t)]) \/
        (exists m, signals (added s s') = [playback_error m])) /\
       filter is_queue_or_mode_changed (added s s') = []) /\
    (forall (w' : World) (ev : Event) (s0 : PlaybackManager),
       (forall m, ev <> Call_set_playback_mode m) ->
       filter is_queue_or_mode_changed
         (added s0 (final_state (handle w' ev s0))) = []).
Proof.
  intros w ids mode start s Hne. split.
  - destruct (set_playlist_nonempty w mode start s Hne) as (tid & _ & E).
    eexists. split; [exact E|].
    unfold after_start_or_skip.
    destruct (get_track_by_id w tid) as [t|] eqn:Et.
    + destruct (playable w (Some t)).
      * cbn. repeat split.
        -- left. exists t. erewrite added_app; [|cbn; reflexivity]. reflexivity.
        -- erewrite added_app; [|cbn; reflexivity]. reflexivity.
      * cbn. repeat split.
        -- right. eexists. erewrite added_app; [|cbn; reflexivity]. reflexivity.
        -- erewrite added_app; [|cbn; reflexivity]. reflexivity.
    + cbn. repeat split.
      * right. eexists. erewrite added_app; [|cbn; reflexivity]. reflexivity.
      * erewrite added_app; [|cbn; reflexivity]. reflexivity.
  - intros w' ev s0 Hev.
    destruct (@only_handle w' not_queue_or_mode_changed) with (ev := ev) (s := s0)
      as (d & Ed & Fd); try (intros; reflexivity); [exact Hev|].
    rewrite (added_app _ _ _ Ed). now apply filter_none.
Qed.

Lemma set_playlist_emits_no_queue_or_mode_change_witness :
  filter is_queue_or_mode_changed
    (added init
       (final_state
          (set_playlist world_all_present [1; 2; 3] PlaybackMode.SHUFFLE None
                        init))) = [].
Proof.
  destruct (@set_playlist_emits_no_queue_or_mode_change world_all_present
              [1; 2; 3] PlaybackMode.SHUFFLE None init)
    as [(s' & E & _ & _ & _ & H) _].
  - discriminate.
  - rewrite E. exact H.
Defined.

(** ** next and previous *)

Definition then_play (s : PlaybackManager) : PlaybackManager :=
  with_effects (effects s ++ [Player player_play]) s.

Lemma after_start_or_skip_frame (w : World) (tid : Z) (s : PlaybackManager) :
  let s' := after_start_or_skip w tid s in
  current_queue_index s' = current_queue_index s /\
  playback_queue_ids s' = playback_queue_ids s /\
  playback_mode s' = playback_mode s /\
  current_playlist_ids s' = current_playlist_ids s.
Proof.
  unfold after_start_or_skip.
  destruct (playable w (get_track_by_id w tid));
    [destruct (get_track_by_id w tid)|]; cbn; auto.
Qed.

Lemma play_unless_none_in_range (w : World) (i : Z) (s : PlaybackManager) :
  0 <= i < len (playback_queue_ids s) ->
  exists track_id,
    py_getitem (playback_queue_ids s) i = Some track_id /\
    play_unless_none w i s =
    Returned tt
      (then_play (after_start_or_skip w track_id (with_current_queue_index i s))).
Proof.
  intros Hi. destruct (play_track_at_index_in_range w s Hi) as (tid & Hv & E).
  exists tid. split; [exact Hv|].
  unfold play_unless_none.
  replace (i =? -1) with false by (symmetry; apply Z.eqb_neq; lia).
  cbn [negb]. unfold bind. rewrite E. reflexivity.
Qed.

Lemma play_unless_none_none (w : World) (s : PlaybackManager) :
  play_unless_none w (-1) s = stop s.
Proof. reflexivity. Qed.

(** Where [play_unless_none] leaves the index, for an index of the queue. *)
Lemma play_unless_none_index (w : World) (i : Z) (s : PlaybackManager) :
  0 <= i < len (playback_queue_ids s) ->
  exists s', play_unless_none w i s = Returned tt s' /\
    current_queue_index s' = i /\
    playback_queue_ids s' = playback_queue_ids s /\
    playback_mode s' = playback_mode s /\
    current_playlist_ids s' = current_playlist_ids s.
Proof.
  intros Hi. destruct (play_unless_none_in_range w s Hi) as (tid & _ & E).
  eexists. split; [exact E|].
  destruct (after_start_or_skip_frame w tid (with_current_queue_index i s))
    as (H1 & H2 & H3 & H4).
  cbn. rewrite H1, H2, H3, H4. cbn. auto.
Qed.

Lemma nonempty_true_of_len (l : list Z) : 0 < len l -> nonempty l = true.
Proof. apply nonempty_len. Qed.

Lemma len_pos_of_ne (l : list Z) : l <> [] -> 0 < len l.
Proof.
  intros H. apply nonempty_len. destruct l; [congruence | reflexivity].
Qed.

(** The playback position is over three seconds: [play_previous] rewinds the
    track and touches nothing else. *)
Lemma play_previous_rewinds (w : World) (s : PlaybackManager) :
  3000 < player_position w ->
  play_previous w s =
  Returned tt (with_effects (effects s ++ [Player (player_setPosition 0)]) s).
Proof.
  intros H. unfold play_previous.
  replace (player_position w >? 3000) with true
    by (symmetry; apply Z.gtb_lt; lia).
  reflexivity.
Qed.

(** What the claim C5 says of [play_previous]. *)
Definition previous_wraps_to_last (w : World) (s : PlaybackManager) : Prop :=
  current_queue_index (final_state (play_previous w s)) =
  len (playback_queue_ids s) - 1.

(** C5, as stated, fails: REPEAT_ALL, the first of three tracks selected, the
    player five seconds into it; [play_previous] rewinds the track and the
    index stays 0 instead of becoming 2. *)
Lemma previous_wraps_to_last_counterexample :
  let s := run [(world_all_present,
                 Call_set_playlist [1; 2; 3] PlaybackMode.REPEAT_ALL None)]
               init in
  playback_queue_ids s = [1; 2; 3] /\
  playback_mode s = PlaybackMode.REPEAT_ALL /\
  current_queue_index s = 0 /\
  current_queue_index (final_state (play_previous world_five_seconds_in s)) = 0 /\
  ~ previous_wraps_to_last world_five_seconds_in s.
Proof.
  cbv zeta. repeat split; try reflexivity.
  unfold previous_wraps_to_last. vm_compute. discriminate.
Qed.

(** C5, amended. REPEAT_ALL and a non-empty queue: [play_next] from the last
    index selects index 0; [play_previous] from index 0 selects the last
    index when the player is at most 3000 ms into the track, and otherwise
    rewinds the track and leaves the index at 0. *)
Theorem repeat_all_wraps_around :
  forall (w : World) (s : PlaybackManager),
    playback_queue_ids s <> [] ->
    playback_mode s = PlaybackMode.REPEAT_ALL ->
    (current_queue_index s = len (playback_queue_ids s) - 1 ->
     exists s', play_next w s = Returned tt s' /\ current_queue_index s' = 0) /\
    (current_queue_index s = 0 -> player_position w <= 3000 ->
     exists s', play_previous w s = Returned tt s' /\
       current_queue_index s' = len (playback_queue_ids s) - 1) /\
    (current_queue_index s = 0 -> 3000 < player_position w ->
     exists s', play_previous w s = Returned tt s' /\
       current_queue_index s' = 0 /\
       added s s' = [Player (player_setPosition 0)]).
Proof.
  intros w s Hne Hmode. pose proof (len_pos_of_ne Hne) as Hlen.
  split; [|split].
  - intros Hidx.
    destruct (@play_unless_none_index w 0 s) as (s' & E & Hi & _); [lia|].
    exists s'. split; [|exact Hi].
    unfold play_next. monad.
    rewrite (nonempty_true_of_len _ Hlen). cbn [negb]. monad.
    rewrite Hmode, Hidx.
    change (PlaybackMode.REPEAT_ALL =? PlaybackMode.REPEAT_ONE) with false.
    cbv iota.
    replace (len (playback_queue_ids s) - 1 + 1 >=? len (playback_queue_ids s))
      with true by (symmetry; apply Z.geb_le; lia).
    exact E.
  - intros Hidx Hpos.
    destruct (@play_unless_none_index w (len (playback_queue_ids s) - 1) s)
      as (s' & E & Hi & _); [lia|].
    exists s'. split; [|exact Hi].
    unfold play_previous.
    replace (player_position w >? 3000) with false
      by (symmetry; rewrite Z.gtb_ltb; apply Z.ltb_ge; lia).
    monad. rewrite (nonempty_true_of_len _ Hlen). cbn [negb]. monad.
    rewrite Hmode, Hidx.
    exact E.
  - intros Hidx Hpos. rewrite (play_previous_rewinds _ _ Hpos).
    eexists. split; [reflexivity|]. cbn. split; [exact Hidx|].
    now apply added_app.
Qed.

Lemma repeat_all_wraps_around_witness :
  let s := run [(world_all_present,
                 Call_set_playlist [1; 2; 3] PlaybackMode.REPEAT_ALL (Some 3))]
               init in
  current_queue_index s = 2 /\
  exists s', play_next world_all_present s = Returned tt s' /\
             current_queue_index s' = 0.
Proof.
  intros s. split; [reflexivity|].
  apply (@repeat_all_wraps_around world_all_present s);
    [discriminate | reflexivity | reflexivity].
Defined.

Lemma position_ok_empty (s : PlaybackManager) :
  position_ok s -> playback_queue_ids s = [] -> current_queue_index s = -1.
Proof.
  intros [H|H] E; [exact H|]. rewrite E in H. unfold len in H. simpl in H. lia.
Qed.

Lemma stop_index (s : PlaybackManager) :
  exists s', stop s = Returned tt s' /\ current_queue_index s' = -1 /\
    playback_queue_ids s' = playback_queue_ids s /\
    playback_mode s' = playback_mode s /\
    current_playlist_ids s' = current_playlist_ids s.
Proof. rewrite stop_eq. eexists. split; [reflexivity|]. cbn. auto. Qed.

(** C6, as stated, fails: REPEAT_ONE, three tracks loaded, then [stop], so
    no track is selected (index -1); [play_previous] selects index 0. *)
Lemma repeat_one_previous_counterexample :
  let s := run [(world_all_present,
                 Call_set_playlist [1; 2; 3] PlaybackMode.REPEAT_ONE None);
                (world_all_present, Call_stop)] init in
  playback_mode s = PlaybackMode.REPEAT_ONE /\
  current_queue_index s = -1 /\
  current_queue_index (final_state (play_previous world_all_present s)) = 0 /\
  current_queue_index (final_state (play_previous world_all_present s)) <>
  current_queue_index s.
Proof.
  cbv zeta. repeat split. vm_compute. discriminate.
Qed.

(** C6, amended. REPEAT_ONE: [play_next] never changes the index, and
    [play_previous] does not change it while a track is selected; with no
    track selected (index -1) [play_previous] still leaves it when the queue
    is empty or the player is over 3000 ms in, and otherwise selects
    index 0. *)
Theorem repeat_one_keeps_position :
  forall (w : World) (s : PlaybackManager),
    playback_mode s = PlaybackMode.REPEAT_ONE ->
    position_ok s ->
    (exists s', play_next w s = Returned tt s' /\
       current_queue_index s' = current_queue_index s) /\
    (current_queue_index s <> -1 \/ playback_queue_ids s = [] \/
     3000 < player_position w ->
     exists s', play_previous w s = Returned tt s' /\
       current_queue_index s' = current_queue_index s) /\
    (current_queue_index s = -1 -> playback_queue_ids s <> [] ->
     player_position w <= 3000 ->
     exists s', play_previous w s = Returned tt s' /\
       current_queue_index s' = 0).
Proof.
  intros w s Hmode Hok. split; [|split].
  - unfold play_next. monad.
    destruct (nonempty (playback_queue_ids s)) eqn:En; cbn [negb].
    + monad. rewrite Hmode.
      change (PlaybackMode.REPEAT_ONE =? PlaybackMode.REPEAT_ONE) with true.
      cbv iota. destruct Hok as [Hnone|Hin].
      * rewrite Hnone.
        replace (-1 >=? len (playback_queue_ids s)) with false
          by (symmetry; rewrite Z.geb_leb; apply Z.leb_gt;
              pose proof (len_nonneg (playback_queue_ids s)); lia).
        rewrite play_unless_none_none.
        destruct (stop_index s) as (s' & E & Hi & _). eauto.
      * replace (current_queue_index s >=? len (playback_queue_ids s))
          with false by (symmetry; rewrite Z.geb_leb; apply Z.leb_gt; lia).
        destruct (play_unless_none_index w s Hin) as (s' & E & Hi & _). eauto.
    + apply nonempty_false in En.
      rewrite (position_ok_empty Hok En).
      destruct (stop_index s) as (s' & E & Hi & _). eauto.
  - intros Hcase.
    destruct (Z.ltb_spec 3000 (player_position w)) as [Hpos|Hpos].
    { rewrite (play_previous_rewinds _ _ Hpos). eexists. split; reflexivity. }
    unfold play_previous.
    replace (player_position w >? 3000) with false
      by (symmetry; rewrite Z.gtb_ltb; apply Z.ltb_ge; lia).
    monad.
    destruct (nonempty (playback_queue_ids s)) eqn:En; cbn [negb].
    + destruct Hcase as [Hsel|[Hemp|Hp]];
        [|rewrite Hemp in En; discriminate|lia].
      destruct Hok as [Hnone|Hin]; [contradiction|].
      monad. rewrite Hmode.
      change (PlaybackMode.REPEAT_ONE =? PlaybackMode.REPEAT_ONE) with true.
      cbv iota.
      replace (current_queue_index s <? 0) with false
        by (symmetry; apply Z.ltb_ge; lia).
      destruct (play_unless_none_index w s Hin) as (s' & E & Hi & _). eauto.
    + apply nonempty_false in En.
      rewrite (position_ok_empty Hok En).
      destruct (stop_index s) as (s' & E & Hi & _). eauto.
  - intros Hnone Hne Hpos. pose proof (len_pos_of_ne Hne) as Hlen.
    unfold play_previous.
    replace (player_position w >? 3000) with false
      by (symmetry; rewrite Z.gtb_ltb; apply Z.ltb_ge; lia).
    monad. rewrite (nonempty_true_of_len _ Hlen). cbn [negb]. monad.
    rewrite Hmode, Hnone.
    change (PlaybackMode.REPEAT_ONE =? PlaybackMode.REPEAT_ONE) with true.
    change (wrapping PlaybackMode.REPEAT_ONE) with false.
    cbv iota. change (-1 <? 0) with true. cbv iota.
    replace (len (playback_queue_ids s) >? 0) with true
      by (symmetry; apply Z.gtb_lt; lia).
    destruct (@play_unless_none_index w 0 s) as (s' & E & Hi & _); [lia|].
    eauto.
Qed.

Lemma repeat_one_keeps_position_witness :
  let s := run [(world_all_present,
                 Call_set_playlist [1; 2; 3] PlaybackMode.REPEAT_ONE (Some 2))]
               init in
  current_queue_index s = 1 /\
  exists s', play_next world_all_present s = Returned tt s' /\
             current_queue_index s' = current_queue_index s.
Proof.
  intros s. split; [reflexivity|].
  destruct (@repeat_one_keeps_position world_all_present s) as [H _];
    [reflexivity | right; vm_compute; split; [discriminate | reflexivity] | exact H].
Defined.

(** ** Errors of the player *)

(** How the class treats an unplayable track: it emits [playback_error] and
    then schedules [play_next]. *)
Definition reports_and_schedules_next (s s' : PlaybackManager) : Prop :=
  exists m d,
    added s s' = [Emit (playback_error m); SingleShot d] /\
    pending_timers s' = pending_timers s ++ [d].

(** C7, as stated, fails for [on_error]: three tracks loaded and the first
    one playing, the player reports an error; the class emits
    [playback_error] and that is all: no timer, no [play_next], the same
    track still selected. *)
Lemma on_error_counterexample :
  let s := run [(world_all_present,
                 Call_set_playlist [1; 2; 3] PlaybackMode.NORMAL None)] init in
  let s' := final_state (on_error "decoder failed" s) in
  added s s' = [Emit (playback_error (PlayerError "decoder failed"))] /\
  pending_timers s' = [] /\
  current_queue_index s' = 0 /\
  drain_timers world_all_present 3 s' = s' /\
  ~ reports_and_schedules_next s s'.
Proof.
  cbv zeta. repeat split.
  intros (m & d & H & _). vm_compute in H. discriminate.
Qed.

(** C7, amended. [on_error] emits [playback_error] and changes nothing else:
    it schedules no advance.  The media status [InvalidMedia] is the one
    handled like an unplayable track: [playback_error], then [play_next]
    after 50 ms, which stops when the queue is empty. *)
Theorem player_error_handling :
  forall (w : World) (error_string : string) (s : PlaybackManager),
    on_error error_string s =
      Returned tt
        (with_effects
           (effects s ++ [Emit (playback_error (PlayerError error_string))]) s) /\
    ~ reports_and_schedules_next s (final_state (on_error error_string s)) /\
    (exists s', on_media_status_changed w InvalidMedia s = Returned tt s' /\
       reports_and_schedules_next s s' /\
       added s s' = [Emit (playback_error (InvalidMediaFile (player_source w)));
                     SingleShot 50] /\
       current_queue_index s' = current_queue_index s /\
       playback_queue_ids s' = playback_queue_ids s /\
       fire_timer w (List.length (pending_timers s)) s' =
       play_next w (with_pending_timers (pending_timers s) s')) /\
    (playback_queue_ids s = [] -> play_next w s = stop s).
Proof.
  intros w e s. split; [reflexivity|]. split; [|split].
  - intros (m & d & H & _).
    erewrite added_app in H; [|cbn; reflexivity]. discriminate.
  - eexists. split.
    { unfold on_media_status_changed. monad. rewrite <- app_assoc. reflexivity. }
    cbn. assert (Hadd : forall s' d, effects s' = effects s ++ d -> added s s' = d)
      by (intros; now apply added_app).
    split; [|split; [|split; [|split]]]; try reflexivity.
    + do 2 eexists. split; [apply Hadd; reflexivity | reflexivity].
    + apply Hadd. reflexivity.
    + unfold fire_timer. monad.
      rewrite nth_error_app2 by lia. rewrite Nat.sub_diag. cbn [nth_error].
      replace (remove_nth (List.length (pending_timers s)) (pending_timers s ++ [50]))
        with (pending_timers s); [reflexivity|].
      induction (pending_timers s) as [|x l IH]; simpl; [reflexivity | now rewrite <- IH].
  - intros Hq. unfold play_next. monad. rewrite Hq. reflexivity.
Qed.

Lemma player_error_handling_witness :
  play_next world_all_present init = stop init.
Proof.
  apply (@player_error_handling world_all_present "decoder failed" init).
  reflexivity.
Defined.

(** ** The bounds of the index

    [steady m]: [m] leaves the original list and the queue alone, and an
    index that was in bounds before is in bounds after. *)

Definition steady {A} (m : M A) : Prop :=
  forall s,
    current_playlist_ids (final_state (m s)) = current_playlist_ids s /\
    playback_queue_ids (final_state (m s)) = playback_queue_ids s /\
    (position_ok s -> position_ok (final_state (m s))).

Lemma steady_ret {A} (a : A) : steady (ret a).
Proof. intros s. cbn. auto. Qed.

Lemma steady_raise {A} (e : Exception) : steady (@raise A e).
Proof. intros s. cbn. auto. Qed.

Lemma steady_gets {A} (f : PlaybackManager -> A) : steady (gets f).
Proof. intros s. cbn. auto. Qed.

Lemma steady_modify (f : PlaybackManager -> PlaybackManager) :
  (forall s, current_playlist_ids (f s) = current_playlist_ids s /\
             playback_queue_ids (f s) = playback_queue_ids s /\
             current_queue_index (f s) = current_queue_index s) ->
  steady (modify f).
Proof.
  intros H s. destruct (H s) as (H1 & H2 & H3). cbn.
  repeat split; auto. unfold position_ok. now rewrite H2, H3.
Qed.

Lemma steady_emit (sig : Signal) : steady (emit sig).
Proof. apply steady_modify. intros s. cbn. auto. Qed.

Lemma steady_player (c : PlayerCall) : steady (player c).
Proof. apply steady_modify. intros s. cbn. auto. Qed.

Lemma steady_singleShot (d : Z) : steady (singleShot d).
Proof. apply steady_modify. intros s. cbn. auto. Qed.

Lemma steady_bind {A B} (m : M A) (k : A -> M B) :
  steady m -> (forall a, steady (k a)) -> steady (bind m k).
Proof.
  intros Hm Hk s. unfold bind.
  destruct (Hm s) as (P1 & Q1 & I1).
  destruct (m s) as [a s1|e s1]; cbn in *; [|auto].
  destruct (Hk a s1) as (P2 & Q2 & I2).
  rewrite P2, Q2. auto.
Qed.

Lemma steady_stop : steady stop.
Proof.
  intros s. rewrite stop_eq. cbn. repeat split. intros _. now left.
Qed.

Lemma play_track_at_index_is_stop (w : World) (i : Z) (s : PlaybackManager) :
  i < 0 \/ len (playback_queue_ids s) <= i ->
  play_track_at_index w i s = stop s.
Proof.
  intros Hout. unfold play_track_at_index. monad.
  replace ((0 <=? i) && (i <? len (playback_queue_ids s))) with false;
    [reflexivity|].
  symmetry. apply andb_false_iff.
  destruct Hout; [left; apply Z.leb_gt | right; apply Z.ltb_ge]; lia.
Qed.

Lemma steady_play_track_at_index (w : World) (i : Z) :
  steady (play_track_at_index w i).
Proof.
  intros s.
  destruct (Z.le_gt_cases 0 i) as [H0|H0];
    [destruct (Z.lt_ge_cases i (len (playback_queue_ids s))) as [H1|H1]|].
  - destruct (@play_track_at_index_in_range w i s) as (tid & _ & E); [lia|].
    rewrite E. cbn [final_state].
    destruct (after_start_or_skip_frame w tid (with_current_queue_index i s))
      as (F1 & F2 & _ & F4).
    unfold position_ok. rewrite F1, F2, F4. cbn. repeat split.
    intros _. right. lia.
  - rewrite play_track_at_index_is_stop by lia.
    apply steady_stop.
  - rewrite play_track_at_index_is_stop by lia.
    apply steady_stop.
Qed.

Ltac steady_step :=
  first
    [ apply steady_ret | apply steady_raise | apply steady_gets
    | apply steady_emit | apply steady_player | apply steady_singleShot
    | apply steady_stop | apply steady_play_track_at_index
    | apply steady_bind; [|intros]
    | match goal with
      | |- steady (modify _) => apply steady_modify; intros; cbn; auto
      | |- steady (if ?c then _ else _) => destruct c
      | |- steady (match ?x with _ => _ end) => destruct x
      end ].

Ltac steady_walk := repeat steady_step.

Section Steady.

Variable w : World.

Lemma steady_play : steady (play w).
Proof. unfold play. steady_walk. Qed.

Lemma steady_pause : steady (pause w).
Proof. unfold pause. steady_walk. Qed.

Lemma steady_toggle_play_pause : steady (toggle_play_pause w).
Proof.
  unfold toggle_play_pause.
  destruct (PlaybackState.eqb _ _); [apply steady_pause | apply steady_play].
Qed.

Lemma steady_play_unless_none (i : Z) : steady (play_unless_none w i).
Proof. unfold play_unless_none. steady_walk. Qed.

Lemma steady_play_next : steady (play_next w).
Proof.
  unfold play_next.
  repeat first [apply steady_play_unless_none | steady_step].
Qed.

Lemma steady_play_previous : steady (play_previous w).
Proof.
  unfold play_previous.
  repeat first [apply steady_play_unless_none | steady_step].
Qed.

Lemma steady_on_media_status_changed (st : MediaStatus) :
  steady (on_media_status_changed w st).
Proof. unfold on_media_status_changed. steady_walk. Qed.

Lemma steady_fire_timer (k : nat) : steady (fire_timer w k).
Proof.
  unfold fire_timer. repeat first [apply steady_play_next | steady_step].
Qed.

End Steady.

(** The invariant of the reachable states: the index is in bounds, and the
    original list is empty, since no method ever assigns it. *)
Definition wf (s : PlaybackManager) : Prop :=
  position_ok s /\ current_playlist_ids s = [].

Lemma steady_wf {A} (m : M A) (s : PlaybackManager) :
  steady m -> wf s -> wf (final_state (m s)).
Proof.
  intros Hm [Hok Hpl]. destruct (Hm s) as (P1 & _ & I1).
  split; [auto | congruence].
Qed.

Lemma set_playlist_wf (w : World) (ids : list Z) (mode : Z) (start : option Z)
    (s : PlaybackManager) :
  wf s -> wf (final_state (set_playlist w ids mode start s)).
Proof.
  intros [Hok Hpl]. destruct ids as [|x ids'] eqn:Eids; [split; assumption|].
  rewrite <- Eids.
  assert (Hne : ids <> []) by (rewrite Eids; discriminate).
  destruct (set_playlist_nonempty w mode start s Hne) as (tid & _ & E).
  rewrite E. cbn [final_state].
  match goal with |- wf (after_start_or_skip _ _ ?s0) =>
    destruct (after_start_or_skip_frame w tid s0) as (F1 & F2 & _ & F4) end.
  split.
  - right. unfold position_ok. rewrite F1, F2. cbn.
    apply start_index_in_range. exact Hne.
  - rewrite F4. cbn. exact Hpl.
Qed.

Lemma play_track_by_id_wf (w : World) (track_id : Z) (s : PlaybackManager) :
  wf s -> wf (final_state (play_track_by_id w track_id s)).
Proof.
  intros Hwf. pose proof Hwf as [Hok Hpl].
  unfold play_track_by_id. monad. rewrite Hpl. cbn [py_in existsb].
  destruct (py_in track_id (playback_queue_ids s)); [|exact Hwf].
  apply (@steady_wf _ (index <- index_of (playback_queue_ids s) track_id ;;
                       play_track_at_index w index)); [|exact Hwf].
  unfold index_of. steady_walk.
Qed.

Lemma play_track_wf (w : World) (t : option Track) (s : PlaybackManager) :
  wf s -> wf (final_state (play_track w t s)).
Proof.
  intros Hwf. unfold play_track.
  destruct t as [t|]; [destruct (id t) as [tid|]|];
    try (apply steady_wf; [apply steady_emit | exact Hwf]).
  destruct (nonempty _); now apply set_playlist_wf.
Qed.

(** With an empty original list, a change of mode empties the queue. *)
Lemma set_playback_mode_empties (w : World) (mode : Z) (s : PlaybackManager) :
  position_ok s ->
  current_playlist_ids s = [] ->
  mode <> playback_mode s ->
  set_playback_mode w mode s =
  Returned tt
    (mkPM (current_track s) [] [] (-1) mode (_playing_next_automatically s)
          (pending_timers s)
          (effects s ++ [Emit (queue_changed []); Emit (mode_changed mode)])).
Proof.
  intros Hok Hpl Hm. unfold set_playback_mode, getitem. monad.
  replace (mode =? playback_mode s) with false
    by (symmetry; now apply Z.eqb_neq).
  rewrite Hpl. destruct Hok as [Hnone|Hin].
  - rewrite Hnone. cbn.
    destruct (mode =? PlaybackMode.SHUFFLE); cbn; now rewrite <- app_assoc.
  - replace (current_queue_index s =? -1) with false
      by (symmetry; apply Z.eqb_neq; lia).
    destruct (py_getitem_in_range _ Hin) as (v & Hv & _).
    cbn [negb]. rewrite Hv.
    destruct (mode =? PlaybackMode.SHUFFLE); cbn;
      rewrite ?andb_false_r; cbn; now rewrite <- app_assoc.
Qed.

Lemma set_playback_mode_wf (w : World) (mode : Z) (s : PlaybackManager) :
  wf s -> wf (final_state (set_playback_mode w mode s)).
Proof.
  intros [Hok Hpl]. destruct (Z.eq_dec mode (playback_mode s)) as [E|E].
  - unfold set_playback_mode. monad.
    replace (mode =? playback_mode s) with true by (symmetry; now apply Z.eqb_eq).
    split; assumption.
  - rewrite (set_playback_mode_empties w Hok Hpl E). split; [now left | reflexivity].
Qed.

Lemma handle_wf (w : World) (ev : Event) (s : PlaybackManager) :
  wf s -> wf (final_state (handle w ev s)).
Proof.
  intros Hwf. destruct ev; cbn [handle];
    auto using set_playlist_wf, play_track_by_id_wf, play_track_wf,
      set_playback_mode_wf;
    apply steady_wf; auto using steady_play_track_at_index, steady_play,
      steady_pause, steady_toggle_play_pause, steady_stop, steady_play_next,
      steady_play_previous, steady_on_media_status_changed, steady_fire_timer,
      steady_emit.
Qed.

Lemma run_wf (history : list (World * Event)) (s : PlaybackManager) :
  wf s -> wf (run history s).
Proof.
  revert s. induction history as [|[w ev] rest IH]; intros s Hwf; simpl;
    [exact Hwf | apply IH, handle_wf, Hwf].
Qed.

(** C9. After any sequence of events on a fresh [PlaybackManager] (calls of
    the public methods, in any order and with any arguments, notifications of
    the player, timers firing) the index is -1 or an index of the queue. *)
Theorem position_bounds_invariant :
  forall history : list (World * Event),
    let s := run history init in
    current_queue_index s = -1 \/
    0 <= current_queue_index s < len (playback_queue_ids s).
Proof.
  intros history. apply (@run_wf history init).
  split; [now left | reflexivity].
Qed.

(** ** play_next, case by case *)


Lemma play_next_advances (w : World) (s : PlaybackManager) :
  playback_mode s <> PlaybackMode.REPEAT_ONE ->
  current_queue_index s + 1 < len (playback_queue_ids s) ->
  0 < len (playback_queue_ids s) ->
  play_next w s = play_unless_none w (current_queue_index s + 1) s.
Proof.
  intros Hm Hi Hlen. unfold play_next. monad.
  rewrite (nonempty_true_of_len _ Hlen). cbn [negb]. monad.
  replace (playback_mode s =? PlaybackMode.REPEAT_ONE) with false
    by (symmetry; now apply Z.eqb_neq).
  replace (current_queue_index s + 1 >=? len (playback_queue_ids s)) with false
    by (symmetry; rewrite Z.geb_leb; apply Z.leb_gt; lia).
  reflexivity.
Qed.

Lemma play_next_at_end (w : World) (s : PlaybackManager) :
  playback_mode s <> PlaybackMode.REPEAT_ONE ->
  len (playback_queue_ids s) <= current_queue_index s + 1 ->
  play_next w s =
  if wrapping (playback_mode s) && nonempty (playback_queue_ids s)
  then play_unless_none w 0 s else stop s.
Proof.
  intros Hm Hi. unfold play_next. monad.
  destruct (nonempty (playback_queue_ids s)); cbn [negb];
    [|now rewrite andb_false_r].
  monad.
  replace (playback_mode s =? PlaybackMode.REPEAT_ONE) with false
    by (symmetry; now apply Z.eqb_neq).
  replace (current_queue_index s + 1 >=? len (playback_queue_ids s)) with true
    by (symmetry; apply Z.geb_le; lia).
  rewrite andb_true_r. now destruct (wrapping (playback_mode s)).
Qed.


(** ** Sweeping over tracks that cannot be played *)
















Lemma py_getitem_In (l : list Z) (i v : Z) : py_getitem l i = Some v -> In v l.
Proof.
  unfold py_getitem.
  destruct ((0 <=? i) && (i <? len l));
    [|destruct ((- len l <=? i) && (i <? 0)); [|discriminate]];
    apply nth_error_In.
Qed.










(** Three tracks loaded in NORMAL mode while their files were there. *)
Definition three_loaded : PlaybackManager :=
  run [(world_all_present,
        Call_set_playlist [1; 2; 3] PlaybackMode.NORMAL None)] init.







(** ** The original list is never stored *)

(** No method assigns [current_playlist_ids]: it is the empty list of
    [__init__] after any history. *)
Lemma current_playlist_ids_never_assigned (history : list (World * Event)) :
  current_playlist_ids (run history init) = [].
Proof.
  apply (@run_wf history init). split; [now left | reflexivity].
Qed.

(** So whenever the mode really changes, the queue is rebuilt from an empty
    list. *)
Lemma mode_change_empties_queue (history : list (World * Event)) (w : World)
    (mode : Z) :
  mode <> playback_mode (run history init) ->
  playback_queue_ids
    (final_state (set_playback_mode w mode (run history init))) = [].
Proof.
  intros Hm.
  destruct (@run_wf history init) as [Hok Hpl]; [split; [now left | reflexivity]|].
  now rewrite (set_playback_mode_empties w Hok Hpl Hm).
Qed.

(** C1, on the code: three tracks loaded in NORMAL mode, then
    [set_playback_mode(SHUFFLE)] and [set_playback_mode(NORMAL)].  The queue
    is not the three tracks again: it is empty, and so it is already after
    the first of the two calls; the index is -1. *)
Theorem shuffle_round_trip_loses_queue :
  let w := world_all_present in
  let s1 := run [(w, Call_set_playback_mode PlaybackMode.SHUFFLE)] three_loaded in
  let s2 := run [(w, Call_set_playback_mode PlaybackMode.NORMAL)] s1 in
  playback_queue_ids three_loaded = [1; 2; 3] /\
  current_playlist_ids three_loaded = [] /\
  playback_queue_ids s1 = [] /\
  playback_queue_ids s2 = [] /\
  current_queue_index s2 = -1 /\
  signals (added three_loaded s2) =
    [queue_changed []; mode_changed PlaybackMode.SHUFFLE;
     queue_changed []; mode_changed PlaybackMode.NORMAL].
Proof. cbv zeta. repeat split. Qed.

(** C2, on the code: for a non-empty list of track ids [set_playlist] leaves
    [current_playlist_ids] as it was (it does not store the list there),
    and the queue is the list in the order given, in every mode, SHUFFLE
    included: [random.shuffle] is not consulted. *)
Theorem set_playlist_stores_no_original :
  forall (w : World) (ids : list Z) (mode : Z) (start : option Z)
         (s : PlaybackManager),
    ids <> [] ->
    exists s', set_playlist w ids mode start s = Returned tt s' /\
      current_playlist_ids s' = current_playlist_ids s /\
      playback_queue_ids s' = ids /\
      playback_mode s' = mode.
Proof.
  intros w ids mode start s Hne.
  destruct (set_playlist_nonempty w mode start s Hne) as (tid & _ & E).
  eexists. split; [exact E|].
  match goal with |- context [after_start_or_skip w tid ?s0] =>
    destruct (after_start_or_skip_frame w tid s0) as (_ & F2 & F3 & F4) end.
  rewrite F2, F3, F4. cbn. auto.
Qed.

Lemma set_playlist_stores_no_original_witness :
  let w := world_all_present in
  random_shuffle w [1; 2; 3] = [3; 2; 1] /\
  exists s', set_playlist w [1; 2; 3] PlaybackMode.SHUFFLE None init
             = Returned tt s' /\
    current_playlist_ids s' = current_playlist_ids init /\
    playback_queue_ids s' = [1; 2; 3] /\
    playback_mode s' = PlaybackMode.SHUFFLE.
Proof.
  split; [reflexivity|].
  apply (@set_playlist_stores_no_original world_all_present [1; 2; 3]).
  discriminate.
Defined.

(** * Further properties of core/playback.py *)

(** ** The transition table of [play_next] and [play_previous] *)

Lemma play_next_forward_step (w : World) (s : PlaybackManager) :
  playback_mode s <> PlaybackMode.REPEAT_ONE ->
  -1 <= current_queue_index s ->
  current_queue_index s + 1 < len (playback_queue_ids s) ->
  exists s', play_next w s = Returned tt s' /\
    current_queue_index s' = current_queue_index s + 1 /\
    playback_queue_ids s' = playback_queue_ids s /\
    playback_mode s' = playback_mode s.
Proof.
  intros Hm Hlo Hhi.
  rewrite play_next_advances by (try assumption; lia).
  destruct (@play_unless_none_index w (current_queue_index s + 1) s)
    as (s' & E & R1 & R2 & R3 & _); [lia|].
  exists s'. auto.
Qed.

Lemma play_next_end_step (w : World) (s : PlaybackManager) :
  playback_mode s <> PlaybackMode.REPEAT_ONE ->
  wrapping (playback_mode s) = false ->
  len (playback_queue_ids s) <= current_queue_index s + 1 ->
  play_next w s = stop s.
Proof.
  intros Hm Hw Hi. rewrite play_next_at_end by assumption. now rewrite Hw.
Qed.

(** Away from the end of the queue, and in any mode but REPEAT_ONE,
    [play_next] selects the next index; with no track selected (index -1)
    that is index 0.  Queue and mode are untouched. *)
Theorem play_next_moves_forward :
  forall (w : World) (s : PlaybackManager),
    playback_mode s <> PlaybackMode.REPEAT_ONE ->
    -1 <= current_queue_index s ->
    current_queue_index s + 1 < len (playback_queue_ids s) ->
    exists s', play_next w s = Returned tt s' /\
      current_queue_index s' = current_queue_index s + 1 /\
      playback_queue_ids s' = playback_queue_ids s /\
      playback_mode s' = playback_mode s.
Proof.
  intros w s Hm Hlo Hhi.
  rewrite play_next_advances by (try assumption; lia).
  destruct (@play_unless_none_index w (current_queue_index s + 1) s)
    as (s' & E & R1 & R2 & R3 & _); [lia|].
  exists s'. auto.
Qed.

Lemma play_next_moves_forward_witness :
  exists s', play_next world_all_present three_loaded = Returned tt s' /\
    current_queue_index s' = current_queue_index three_loaded + 1 /\
    playback_queue_ids s' = playback_queue_ids three_loaded /\
    playback_mode s' = playback_mode three_loaded.
Proof.
  apply play_next_moves_forward; vm_compute;
    first [discriminate | reflexivity].
Defined.

(** At the last index, in a mode that is neither REPEAT_ONE, REPEAT_ALL nor
    SHUFFLE (NORMAL, or any other integer), [play_next] is [stop]: nothing is
    selected afterwards and the queue is kept. *)
Theorem play_next_stops_at_end :
  forall (w : World) (s : PlaybackManager),
    playback_mode s <> PlaybackMode.REPEAT_ONE ->
    wrapping (playback_mode s) = false ->
    len (playback_queue_ids s) <= current_queue_index s + 1 ->
    play_next w s = stop s /\
    exists s', play_next w s = Returned tt s' /\
      current_queue_index s' = -1 /\
      current_track s' = None /\
      playback_queue_ids s' = playback_queue_ids s /\
      added s s' = [Player player_stop; Emit (track_changed None)].
Proof.
  intros w s Hm Hw Hi.
  assert (E : play_next w s = stop s).
  { rewrite play_next_at_end by assumption. now rewrite Hw. }
  split; [exact E|]. rewrite E, stop_eq.
  eexists. split; [reflexivity|]. cbn. repeat split.
  now apply added_app.
Qed.

Lemma play_next_stops_at_end_witness :
  let s := run [(world_all_present,
                 Call_set_playlist [1; 2; 3] PlaybackMode.NORMAL (Some 3))]
               init in
  current_queue_index s = 2 /\ play_next world_all_present s = stop s.
Proof.
  intros s. split; [reflexivity|].
  apply (@play_next_stops_at_end world_all_present s);
    vm_compute; [discriminate | reflexivity | discriminate].
Defined.

Lemma play_previous_slow (w : World) (s : PlaybackManager) :
  player_position w <= 3000 ->
  0 < len (playback_queue_ids s) ->
  play_previous w s =
  let prev_index :=
    if playback_mode s =? PlaybackMode.REPEAT_ONE then current_queue_index s
    else current_queue_index s - 1 in
  if prev_index <? 0 then
    if wrapping (playback_mode s)
    then play_unless_none w (len (playback_queue_ids s) - 1) s
    else play_unless_none w 0 s
  else play_unless_none w prev_index s.
Proof.
  intros Hpos Hlen. unfold play_previous.
  replace (player_position w >? 3000) with false
    by (symmetry; rewrite Z.gtb_ltb; apply Z.ltb_ge; lia).
  monad. rewrite (nonempty_true_of_len _ Hlen). cbn [negb]. monad.
  replace (len (playback_queue_ids s) >? 0) with true
    by (symmetry; apply Z.gtb_lt; lia).
  cbv zeta.
  destruct (_ <? 0); [destruct (wrapping _)|]; reflexivity.
Qed.

(** [play_previous] with the player at most 3000 ms into the track, in any
    mode but REPEAT_ONE: from an index above 0 it selects the index before;
    from index 0, or with nothing selected, it selects the last index in
    REPEAT_ALL and SHUFFLE and index 0 (the first track again) in the other
    modes. *)
Theorem play_previous_moves_back :
  forall (w : World) (s : PlaybackManager),
    player_position w <= 3000 ->
    playback_mode s <> PlaybackMode.REPEAT_ONE ->
    playback_queue_ids s <> [] ->
    position_ok s ->
    exists s', play_previous w s = Returned tt s' /\
      playback_queue_ids s' = playback_queue_ids s /\
      playback_mode s' = playback_mode s /\
      current_queue_index s' =
        if 0 <? current_queue_index s then current_queue_index s - 1
        else if wrapping (playback_mode s)
             then len (playback_queue_ids s) - 1
             else 0.
Proof.
  intros w s Hpos Hm Hne Hok. pose proof (len_pos_of_ne Hne) as Hlen.
  rewrite play_previous_slow by assumption. cbv zeta.
  replace (playback_mode s =? PlaybackMode.REPEAT_ONE) with false
    by (symmetry; now apply Z.eqb_neq).
  destruct (Z.ltb_spec 0 (current_queue_index s)) as [Hpos'|Hnpos].
  - replace (current_queue_index s - 1 <? 0) with false
      by (symmetry; apply Z.ltb_ge; lia).
    destruct (@play_unless_none_index w (current_queue_index s - 1) s)
      as (s' & E & R1 & R2 & R3 & _); [destruct Hok; lia|].
    exists s'. auto.
  - replace (current_queue_index s - 1 <? 0) with true
      by (symmetry; apply Z.ltb_lt; lia).
    destruct (wrapping (playback_mode s)).
    + destruct (@play_unless_none_index w (len (playback_queue_ids s) - 1) s)
        as (s' & E & R1 & R2 & R3 & _); [lia|].
      exists s'. auto.
    + destruct (@play_unless_none_index w 0 s)
        as (s' & E & R1 & R2 & R3 & _); [lia|].
      exists s'. auto.
Qed.

Lemma play_previous_moves_back_witness :
  exists s', play_previous world_all_present three_loaded = Returned tt s' /\
    playback_queue_ids s' = playback_queue_ids three_loaded /\
    playback_mode s' = playback_mode three_loaded /\
    current_queue_index s' = 0.
Proof.
  apply (@play_previous_moves_back world_all_present three_loaded).
  - vm_compute. discriminate.
  - discriminate.
  - discriminate.
  - right. vm_compute. split; [discriminate | reflexivity].
Defined.

(** [play_next], [n] times in a row. *)
Fixpoint repeat_play_next (w : World) (n : nat) (s : PlaybackManager)
  : PlaybackManager :=
  match n with
  | O => s
  | S n' => repeat_play_next w n' (final_state (play_next w s))
  end.

Lemma repeat_play_next_forward (w : World) (n : nat) :
  forall s : PlaybackManager,
    playback_mode s <> PlaybackMode.REPEAT_ONE ->
    -1 <= current_queue_index s ->
    current_queue_index s + Z.of_nat n < len (playback_queue_ids s) ->
    current_queue_index (repeat_play_next w n s)
      = current_queue_index s + Z.of_nat n /\
    playback_queue_ids (repeat_play_next w n s) = playback_queue_ids s /\
    playback_mode (repeat_play_next w n s) = playback_mode s.
Proof.
  induction n as [|n IH]; intros s Hm Hlo Hhi.
  - cbn. repeat split. lia.
  - cbn [repeat_play_next].
    destruct (@play_next_forward_step w s Hm Hlo) as (s' & E & R1 & R2 & R3);
      [lia|].
    rewrite E. cbn [final_state].
    destruct (IH s') as (I1 & I2 & I3); [congruence | lia | rewrite R1, R2; lia|].
    rewrite I1, I2, I3, R1, R2, R3. repeat split. lia.
Qed.

(** In NORMAL mode, calling [play_next] again and again from index [i]
    selects [i+1], [i+2], ... and reaches the stopped state (index -1) at the
    call number [len(queue) - i], not before. *)
Theorem normal_mode_runs_to_the_end :
  forall (w : World) (s : PlaybackManager) (n : nat),
    playback_mode s = PlaybackMode.NORMAL ->
    0 <= current_queue_index s < len (playback_queue_ids s) ->
    (current_queue_index s + Z.of_nat n < len (playback_queue_ids s) ->
     current_queue_index (repeat_play_next w n s)
       = current_queue_index s + Z.of_nat n) /\
    (current_queue_index s + Z.of_nat n = len (playback_queue_ids s) ->
     current_queue_index (repeat_play_next w n s) = -1 /\
     current_track (repeat_play_next w n s) = None).
Proof.
  intros w s n Hmode Hi.
  assert (Hm : playback_mode s <> PlaybackMode.REPEAT_ONE)
    by (rewrite Hmode; discriminate).
  split.
  - intros Hn. apply repeat_play_next_forward; [assumption | lia | assumption].
  - intros Hn. destruct n as [|n]; [lia|].
    assert (Hsplit : forall k t,
      repeat_play_next w (S k) t =
      final_state (play_next w (repeat_play_next w k t))).
    { induction k as [|k IHk]; intros t; [reflexivity|].
      change (repeat_play_next w (S (S k)) t)
        with (repeat_play_next w (S k) (final_state (play_next w t))).
      now rewrite IHk. }
    rewrite Hsplit.
    destruct (@repeat_play_next_forward w n s Hm) as (I1 & I2 & I3); [lia|lia|].
    rewrite play_next_end_step.
    + rewrite stop_eq. cbn. auto.
    + now rewrite I3.
    + rewrite I3, Hmode. reflexivity.
    + rewrite I1, I2. lia.
Qed.

Lemma normal_mode_runs_to_the_end_witness :
  current_queue_index (repeat_play_next world_all_present 3 three_loaded) = -1 /\
  current_track (repeat_play_next world_all_present 3 three_loaded) = None.
Proof.
  apply (@normal_mode_runs_to_the_end world_all_present three_loaded 3).
  - reflexivity.
  - vm_compute. split; [discriminate | reflexivity].
  - reflexivity.
Defined.

(** ** _shuffle_queue *)

Lemma getitem_some (l : list Z) (i v : Z) (s : PlaybackManager) :
  py_getitem l i = Some v -> getitem l i s = Returned v s.
Proof. intros H. unfold getitem. now rewrite H. Qed.

Lemma index_of_some (l : list Z) (x i : Z) (s : PlaybackManager) :
  py_index l x = Some i -> index_of l x s = Returned i s.
Proof. intros H. unfold index_of. now rewrite H. Qed.

Lemma setitem_queue_some (i v : Z) (q' : list Z) (s : PlaybackManager) :
  py_setitem (playback_queue_ids s) i v = Some q' ->
  setitem_queue i v s = Returned tt (with_playback_queue_ids q' s).
Proof. intros H. unfold setitem_queue. monad. now rewrite H. Qed.

Lemma py_in_In (x : Z) (l : list Z) : py_in x l = true <-> In x l.
Proof.
  unfold py_in. rewrite existsb_exists. split.
  - intros (y & Hy & E). apply Z.eqb_eq in E. now subst.
  - intros H. exists x. split; [exact H | apply Z.eqb_refl].
Qed.

Lemma py_index_nth (l : list Z) (x i : Z) :
  py_index l x = Some i -> nth_error l (Z.to_nat i) = Some x.
Proof.
  revert i. induction l as [|y l IH]; simpl; [discriminate|].
  intros i. destruct (y =? x) eqn:E.
  - intros [= <-]. apply Z.eqb_eq in E. now subst.
  - destruct (py_index l x) as [j|] eqn:Ej; simpl; [|discriminate].
    intros [= <-]. pose proof (py_index_bounds _ _ Ej).
    rewrite Z2Nat.inj_succ by lia. simpl. now apply IH.
Qed.

(** [l.index(x)] is the first position of [x]. *)
Lemma py_index_first (l : list Z) (x i : Z) :
  py_index l x = Some i ->
  forall j, (j < Z.to_nat i)%nat -> nth_error l j <> Some x.
Proof.
  revert i. induction l as [|y l IH]; simpl; [discriminate|].
  intros i. destruct (y =? x) eqn:E.
  - intros [= <-] j Hj. simpl in Hj. lia.
  - destruct (py_index l x) as [k|] eqn:Ek; simpl; [|discriminate].
    intros [= <-] j Hj. pose proof (py_index_bounds _ _ Ek).
    rewrite Z2Nat.inj_succ in Hj by lia.
    destruct j as [|j]; simpl.
    + intros [= ->]. now rewrite Z.eqb_refl in E.
    + apply (IH k eq_refl). lia.
Qed.

Lemma py_getitem_nth (l : list Z) (i : Z) :
  0 <= i < len l -> py_getitem l i = nth_error l (Z.to_nat i).
Proof.
  intros Hi. unfold py_getitem.
  replace ((0 <=? i) && (i <? len l)) with true; [reflexivity|].
  symmetry. apply andb_true_iff. split; [apply Z.leb_le | apply Z.ltb_lt]; lia.
Qed.

Lemma py_setitem_in_range (l : list Z) (i v : Z) :
  0 <= i < len l -> py_setitem l i v = Some (replace_nth (Z.to_nat i) v l).
Proof.
  intros Hi. unfold py_setitem.
  replace ((0 <=? i) && (i <? len l)) with true; [reflexivity|].
  symmetry. apply andb_true_iff. split; [apply Z.leb_le | apply Z.ltb_lt]; lia.
Qed.

Lemma len_replace_nth (n : nat) (v : Z) (l : list Z) :
  len (replace_nth n v l) = len l.
Proof. unfold len. now rewrite replace_nth_length. Qed.

Lemma Permutation_len (l l' : list Z) : Permutation l l' -> len l = len l'.
Proof. intros H. unfold len. now rewrite (Permutation_length H). Qed.

Lemma replace_nth_perm (l : list Z) (k : nat) (a b : Z) :
  nth_error l k = Some a ->
  Permutation (a :: replace_nth k b l) (b :: l).
Proof.
  revert k. induction l as [|y l IH]; intros [|k]; simpl; try discriminate.
  - intros [= ->]. apply perm_swap.
  - intros H. specialize (IH k H).
    eapply perm_trans; [apply perm_swap|].
    eapply perm_trans; [apply perm_skip, IH|]. apply perm_swap.
Qed.

(** The two assignments of the swap [q[0], q[k] = q[k], q[0]]. *)
Definition swap_with_head (k : nat) (l : list Z) : list Z :=
  match nth_error l k, nth_error l 0 with
  | Some a, Some b => replace_nth k b (replace_nth 0 a l)
  | _, _ => l
  end.

Lemma swap_with_head_perm (k : nat) (l : list Z) :
  Permutation (swap_with_head k l) l.
Proof.
  unfold swap_with_head.
  destruct (nth_error l k) as [a|] eqn:Ea; [|reflexivity].
  destruct l as [|b l]; [reflexivity|]. cbn [nth_error replace_nth].
  destruct k as [|k]; cbn [replace_nth].
  - cbn in Ea. injection Ea as <-. reflexivity.
  - cbn in Ea. now apply replace_nth_perm.
Qed.

Lemma swap_with_head_head (k : nat) (l : list Z) (a : Z) :
  nth_error l k = Some a -> nth_error (swap_with_head k l) 0 = Some a.
Proof.
  intros Ea. unfold swap_with_head. rewrite Ea.
  destruct l as [|b l]; [now destruct k|]. cbn [nth_error replace_nth].
  destruct k as [|k]; cbn [replace_nth nth_error].
  - cbn in Ea. now rewrite Ea.
  - reflexivity.
Qed.

(** A queue of two tracks or more, a selected track whose id is not 0 and
    that is still in the list after the shuffle: the closed form of
    [_shuffle_queue]. *)
Lemma shuffle_queue_selected (w : World) (s : PlaybackManager) (c k : Z) :
  1 < len (playback_queue_ids s) ->
  current_queue_index s <> -1 ->
  py_getitem (playback_queue_ids s) (current_queue_index s) = Some c ->
  c <> 0 ->
  py_index (random_shuffle w (playback_queue_ids s)) c = Some k ->
  _shuffle_queue w s =
  Returned tt
    (with_current_queue_index 0
       (with_playback_queue_ids
          (swap_with_head (Z.to_nat k)
             (random_shuffle w (playback_queue_ids s))) s)).
Proof.
  intros Hlen Hsel Hget Hc Hk.
  set (q2 := random_shuffle w (playback_queue_ids s)) in *.
  pose proof (py_index_bounds _ _ Hk) as Hkb.
  pose proof (py_index_nth _ _ Hk) as Hnth.
  assert (Hin : py_in c q2 = true)
    by (apply py_in_In; eapply nth_error_In; eassumption).
  assert (H0 : exists b, nth_error q2 0 = Some b).
  { destruct q2 as [|b q2']; [unfold len in Hkb; simpl in Hkb; lia | now exists b]. }
  destruct H0 as (b & Hb).
  unfold _shuffle_queue. monad.
  replace (len (playback_queue_ids s) >? 1) with true
    by (symmetry; apply Z.gtb_lt; lia).
  replace (current_queue_index s =? -1) with false
    by (symmetry; now apply Z.eqb_neq).
  cbn [negb]. rewrite (getitem_some _ _ s Hget). cbv beta iota.
  fold q2. unfold id_truthy.
  replace (c =? 0) with false by (symmetry; now apply Z.eqb_neq).
  rewrite Hin. cbn [negb andb]. cbv beta iota.
  rewrite (index_of_some _ _ _ Hk). cbv beta iota.
  rewrite getitem_some with (v := c) by (rewrite py_getitem_nth; assumption).
  cbv beta iota.
  rewrite getitem_some with (v := b) by (rewrite py_getitem_nth; [assumption | lia]).
  cbv beta iota.
  erewrite setitem_queue_some
    by (cbn [playback_queue_ids]; apply py_setitem_in_range; lia).
  cbv beta iota.
  erewrite setitem_queue_some
    by (cbn [playback_queue_ids with_playback_queue_ids];
        apply py_setitem_in_range; rewrite len_replace_nth; lia).
  unfold swap_with_head. rewrite Hnth, Hb.
  reflexivity.
Qed.

(** [_shuffle_queue] on two tracks or more, with a selected track whose id is
    not 0, and a [random.shuffle] that permutes: the queue afterwards is a
    permutation of the queue before, the selected track is at index 0, the
    index is 0, and nothing else has changed nor been emitted. *)
Theorem shuffle_queue_moves_current_first :
  forall (w : World) (s : PlaybackManager) (c : Z),
    (forall l, Permutation (random_shuffle w l) l) ->
    1 < len (playback_queue_ids s) ->
    current_queue_index s <> -1 ->
    py_getitem (playback_queue_ids s) (current_queue_index s) = Some c ->
    c <> 0 ->
    exists s', _shuffle_queue w s = Returned tt s' /\
      Permutation (playback_queue_ids s') (playback_queue_ids s) /\
      py_getitem (playback_queue_ids s') 0 = Some c /\
      current_queue_index s' = 0 /\
      playback_mode s' = playback_mode s /\
      current_playlist_ids s' = current_playlist_ids s /\
      current_track s' = current_track s /\
      effects s' = effects s /\
      pending_timers s' = pending_timers s.
Proof.
  intros w s c Hperm Hlen Hsel Hget Hc.
  assert (Hin : py_in c (random_shuffle w (playback_queue_ids s)) = true).
  { apply py_in_In. eapply Permutation_in; [symmetry; apply Hperm|].
    eapply py_getitem_In; eassumption. }
  destruct (py_index_in _ _ Hin) as (k & Hk & Hkb).
  rewrite (shuffle_queue_selected w s Hlen Hsel Hget Hc Hk).
  eexists. split; [reflexivity|]. cbn.
  assert (Hp : Permutation
                 (swap_with_head (Z.to_nat k)
                    (random_shuffle w (playback_queue_ids s)))
                 (playback_queue_ids s))
    by (eapply perm_trans; [apply swap_with_head_perm | apply Hperm]).
  repeat split; try assumption.
  rewrite py_getitem_nth by (rewrite (Permutation_len Hp); lia).
  apply swap_with_head_head. now apply py_index_nth.
Qed.

Lemma shuffle_queue_moves_current_first_witness :
  let s := run [(world_all_present,
                 Call_set_playlist [1; 2; 3] PlaybackMode.NORMAL (Some 2))]
               init in
  exists s', _shuffle_queue world_all_present s = Returned tt s' /\
    Permutation (playback_queue_ids s') (playback_queue_ids s) /\
    py_getitem (playback_queue_ids s') 0 = Some 2 /\
    current_queue_index s' = 0 /\
    playback_mode s' = playback_mode s /\
    current_playlist_ids s' = current_playlist_ids s /\
    current_track s' = current_track s /\
    effects s' = effects s /\
    pending_timers s' = pending_timers s.
Proof.
  intros s.
  apply (@shuffle_queue_moves_current_first world_all_present s 2).
  - intros l. symmetry. apply Permutation_rev.
  - reflexivity.
  - discriminate.
  - reflexivity.
  - discriminate.
Defined.

(** The edges of [_shuffle_queue].  With at most one track the queue is left
    alone and [random.shuffle] is not called; the index becomes 0, or -1 for
    an empty queue, whatever it was.  With two tracks or more and no track
    selected, or a selected track whose id is 0 (which [if current_id]
    takes for no track), the queue is the shuffled list as it is, no swap,
    and the index is 0.  With two tracks or more and an index at or beyond
    the end, the lookup of the current id raises IndexError and nothing has
    been changed. *)
Theorem shuffle_queue_edges :
  forall (w : World) (s : PlaybackManager),
    (len (playback_queue_ids s) <= 1 ->
     _shuffle_queue w s =
     Returned tt
       (with_current_queue_index
          (if nonempty (playback_queue_ids s) then 0 else -1) s)) /\
    (1 < len (playback_queue_ids s) ->
     current_queue_index s = -1 \/
     py_getitem (playback_queue_ids s) (current_queue_index s) = Some 0 ->
     _shuffle_queue w s =
     Returned tt
       (with_current_queue_index
          (if nonempty (random_shuffle w (playback_queue_ids s)) then 0 else -1)
          (with_playback_queue_ids (random_shuffle w (playback_queue_ids s)) s))) /\
    (1 < len (playback_queue_ids s) ->
     len (playback_queue_ids s) <= current_queue_index s ->
     _shuffle_queue w s = Raised IndexError s).
Proof.
  intros w s. split; [|split].
  - intros Hlen. unfold _shuffle_queue. monad.
    replace (len (playback_queue_ids s) >? 1) with false
      by (symmetry; rewrite Z.gtb_ltb; apply Z.ltb_ge; lia).
    reflexivity.
  - intros Hlen Hcase. unfold _shuffle_queue. monad.
    replace (len (playback_queue_ids s) >? 1) with true
      by (symmetry; apply Z.gtb_lt; lia).
    destruct (Z.eq_dec (current_queue_index s) (-1)) as [Hnone|Hsel].
    + rewrite Hnone. cbn.
      now destruct (nonempty (random_shuffle w (playback_queue_ids s))).
    + destruct Hcase as [Hnone|Hzero]; [contradiction|].
      replace (current_queue_index s =? -1) with false
        by (symmetry; now apply Z.eqb_neq).
      cbn [negb]. rewrite (getitem_some _ _ s Hzero). cbn.
      now destruct (nonempty (random_shuffle w (playback_queue_ids s))).
  - intros Hlen Hidx. unfold _shuffle_queue. monad.
    replace (len (playback_queue_ids s) >? 1) with true
      by (symmetry; apply Z.gtb_lt; lia).
    replace (current_queue_index s =? -1) with false
      by (symmetry; apply Z.eqb_neq; lia).
    cbn [negb]. unfold getitem, py_getitem.
    replace (current_queue_index s <? len (playback_queue_ids s)) with false
      by (symmetry; apply Z.ltb_ge; lia).
    replace (current_queue_index s <? 0) with false
      by (symmetry; apply Z.ltb_ge; lia).
    rewrite !andb_false_r. reflexivity.
Qed.

Lemma shuffle_queue_edges_witness :
  let s := with_current_queue_index 5 three_loaded in
  _shuffle_queue world_all_present s = Raised IndexError s.
Proof.
  intros s.
  apply (@shuffle_queue_edges world_all_present s); vm_compute;
    first [reflexivity | discriminate].
Defined.

(** ** set_playback_mode, whatever the original list holds *)

(** The id [set_playback_mode] records before it rebuilds the queue. *)
Definition selected_id (s : PlaybackManager) : option Z :=
  if current_queue_index s =? -1 then None
  else py_getitem (playback_queue_ids s) (current_queue_index s).

(** The index it ends on, for the new queue [q] and the recorded id. *)
Definition index_in_new_queue (q : list Z) (cur : option Z) : Z :=
  match cur with
  | Some c =>
      if negb (c =? 0) && py_in c q
      then match py_index q c with Some k => k | None => 0 end
      else if nonempty q then 0 else -1
  | None => if nonempty q then 0 else -1
  end.

Lemma selected_id_some (s : PlaybackManager) :
  position_ok s -> current_queue_index s <> -1 ->
  exists c, selected_id s = Some c /\
    py_getitem (playback_queue_ids s) (current_queue_index s) = Some c.
Proof.
  intros [Hnone|Hin] Hsel; [contradiction|].
  destruct (py_getitem_in_range _ Hin) as (c & Hc & _).
  exists c. unfold selected_id.
  replace (current_queue_index s =? -1) with false
    by (symmetry; now apply Z.eqb_neq).
  auto.
Qed.

(** The last steps of [set_playback_mode], once the queue is rebuilt. *)
Lemma set_playback_mode_tail (cur : option Z) (s1 : PlaybackManager) :
  exists s2,
    (match cur with
     | Some c =>
         if id_truthy cur && py_in c (playback_queue_ids s1) then
           try_except_ValueError
             (k <- index_of (playback_queue_ids s1) c ;;
              modify (with_current_queue_index k))
             (q <- gets playback_queue_ids ;;
              modify (with_current_queue_index (if nonempty q then 0 else -1)))
         else if nonempty (playback_queue_ids s1)
              then modify (with_current_queue_index 0)
              else modify (with_current_queue_index (-1))
     | None =>
         if nonempty (playback_queue_ids s1)
         then modify (with_current_queue_index 0)
         else modify (with_current_queue_index (-1))
     end) s1 = Returned tt s2 /\
    s2 = with_current_queue_index
           (index_in_new_queue (playback_queue_ids s1) cur) s1.
Proof.
  unfold index_in_new_queue. destruct cur as [c|]; cbn [id_truthy].
  - destruct (negb (c =? 0) && py_in c (playback_queue_ids s1)) eqn:E.
    + apply andb_true_iff in E as [_ Hin].
      destruct (py_index_in _ _ Hin) as (k & Hk & _).
      unfold try_except_ValueError, index_of. rewrite Hk. monad. eauto.
    + destruct (nonempty (playback_queue_ids s1)); monad; eauto.
  - destruct (nonempty (playback_queue_ids s1)); monad; eauto.
Qed.

Lemma index_in_new_queue_ok (q : list Z) (cur : option Z) :
  let i := index_in_new_queue q cur in
  i = -1 \/ 0 <= i < len q.
Proof.
  assert (Hdef : let i := if nonempty q then 0 else -1 in
                 i = -1 \/ 0 <= i < len q).
  { cbv zeta. destruct (nonempty q) eqn:E; [right | now left].
    apply nonempty_len in E. lia. }
  unfold index_in_new_queue. destruct cur as [c|]; [|exact Hdef].
  destruct (negb (c =? 0) && py_in c q) eqn:E; [|exact Hdef].
  apply andb_true_iff in E as [_ Hin].
  destruct (py_index_in _ _ Hin) as (k & -> & Hk). now right.
Qed.

(** Stepping through a method body, one statement at a time. *)
Lemma bind_gets {A B} (f : PlaybackManager -> A) (k : A -> M B)
    (s : PlaybackManager) :
  bind (gets f) k s = k (f s) s.
Proof. reflexivity. Qed.

Lemma bind_modify {B} (f : PlaybackManager -> PlaybackManager)
    (k : unit -> M B) (s : PlaybackManager) :
  bind (modify f) k s = k tt (f s).
Proof. reflexivity. Qed.

Lemma bind_returned {A B} (m : M A) (k : A -> M B) (s s' : PlaybackManager)
    (a : A) :
  m s = Returned a s' -> bind m k s = k a s'.
Proof. intros H. unfold bind. now rewrite H. Qed.

Lemma bind_raised {A B} (m : M A) (k : A -> M B) (s s' : PlaybackManager)
    (e : Exception) :
  m s = Raised e s' -> bind m k s = Raised e s'.
Proof. intros H. unfold bind. now rewrite H. Qed.

Lemma read_selected_id (s s0 : PlaybackManager) :
  position_ok s ->
  (if negb (current_queue_index s =? -1)
   then v <- getitem (playback_queue_ids s) (current_queue_index s) ;;
        ret (Some v)
   else ret None) s0 = Returned (selected_id s) s0.
Proof.
  intros Hok. destruct (Z.eq_dec (current_queue_index s) (-1)) as [Hnone|Hsel].
  - unfold selected_id. rewrite Hnone. reflexivity.
  - destruct (selected_id_some Hok Hsel) as (c & Hc & Hg).
    replace (current_queue_index s =? -1) with false
      by (symmetry; now apply Z.eqb_neq).
    cbn [negb]. erewrite bind_returned by (apply getitem_some; exact Hg).
    now rewrite Hc.
Qed.

(** A change to a mode other than SHUFFLE, with an index in bounds: the
    queue becomes the original list, the mode the new one; a selected track
    whose id is not 0 and that is in the original list stays selected, at its
    first position there, and otherwise the index is 0 (-1 for an empty
    list).  [queue_changed] and [mode_changed] are emitted, in that order,
    and nothing is asked of the player. *)
Theorem set_playback_mode_restores_original :
  forall (w : World) (mode : Z) (s : PlaybackManager),
    position_ok s ->
    mode <> PlaybackMode.SHUFFLE ->
    mode <> playback_mode s ->
    exists s', set_playback_mode w mode s = Returned tt s' /\
      playback_queue_ids s' = current_playlist_ids s /\
      playback_mode s' = mode /\
      current_queue_index s' =
        index_in_new_queue (current_playlist_ids s) (selected_id s) /\
      position_ok s' /\
      current_track s' = current_track s /\
      current_playlist_ids s' = current_playlist_ids s /\
      pending_timers s' = pending_timers s /\
      added s s' = [Emit (queue_changed (current_playlist_ids s));
                    Emit (mode_changed mode)].
Proof.
  intros w mode s Hok Hns Hm.
  unfold set_playback_mode. rewrite bind_gets.
  replace (mode =? playback_mode s) with false
    by (symmetry; now apply Z.eqb_neq).
  replace (mode =? PlaybackMode.SHUFFLE) with false
    by (symmetry; now apply Z.eqb_neq).
  rewrite bind_modify, !bind_gets.
  erewrite bind_returned by (apply read_selected_id; exact Hok).
  erewrite bind_returned by reflexivity.
  rewrite bind_gets.
  match goal with |- context [bind ?m _ ?s1] =>
    destruct (set_playback_mode_tail (selected_id s) s1) as (s2 & E2 & ->) end.
  erewrite bind_returned by exact E2.
  eexists. split; [reflexivity|]. cbn.
  repeat split.
  - apply index_in_new_queue_ok.
  - apply added_app. cbn. now rewrite <- app_assoc.
Qed.

Lemma set_playback_mode_restores_original_witness :
  let s := with_playback_queue_ids [3; 1; 2]
             (mkPM None [1; 2; 3] [] 1 PlaybackMode.SHUFFLE false [] []) in
  exists s', set_playback_mode world_all_present PlaybackMode.NORMAL s
             = Returned tt s' /\
    playback_queue_ids s' = [1; 2; 3] /\
    current_queue_index s' = 0.
Proof.
  intros s.
  destruct (@set_playback_mode_restores_original world_all_present
              PlaybackMode.NORMAL s) as (s' & E & Hq & _ & Hi & _).
  - right. vm_compute. split; [discriminate | reflexivity].
  - discriminate.
  - discriminate.
  - exists s'. repeat split; assumption.
Defined.

Lemma py_index_head (l : list Z) (c : Z) :
  nth_error l 0 = Some c -> py_index l c = Some 0.
Proof.
  destruct l as [|y l]; simpl; [discriminate|].
  intros [= ->]. now rewrite Z.eqb_refl.
Qed.

Lemma selected_id_of_getitem (s : PlaybackManager) (c : Z) :
  current_queue_index s <> -1 ->
  py_getitem (playback_queue_ids s) (current_queue_index s) = Some c ->
  selected_id s = Some c.
Proof.
  intros Hsel Hget. unfold selected_id.
  replace (current_queue_index s =? -1) with false
    by (symmetry; now apply Z.eqb_neq).
  exact Hget.
Qed.

(** Entering SHUFFLE from the original order (the queue is the original
    list), two tracks or more, a selected track whose id is not 0, a
    [random.shuffle] that permutes: the new queue is a permutation of the
    original list with the selected track at index 0, the index is 0, and
    [queue_changed] (with the new queue) and [mode_changed] are emitted;
    the current track and the player are left alone. *)
Theorem set_playback_mode_enters_shuffle :
  forall (w : World) (s : PlaybackManager) (c : Z),
    (forall l, Permutation (random_shuffle w l) l) ->
    playback_mode s <> PlaybackMode.SHUFFLE ->
    playback_queue_ids s = current_playlist_ids s ->
    1 < len (playback_queue_ids s) ->
    0 <= current_queue_index s < len (playback_queue_ids s) ->
    py_getitem (playback_queue_ids s) (current_queue_index s) = Some c ->
    c <> 0 ->
    exists s', set_playback_mode w PlaybackMode.SHUFFLE s = Returned tt s' /\
      Permutation (playback_queue_ids s') (current_playlist_ids s) /\
      py_getitem (playback_queue_ids s') 0 = Some c /\
      current_queue_index s' = 0 /\
      playback_mode s' = PlaybackMode.SHUFFLE /\
      current_track s' = current_track s /\
      added s s' = [Emit (queue_changed (playback_queue_ids s'));
                    Emit (mode_changed PlaybackMode.SHUFFLE)].
Proof.
  intros w s c Hperm Hm Hq Hlen Hi Hget Hc.
  assert (Hsel : current_queue_index s <> -1) by lia.
  assert (Hok : position_ok s) by now right.
  assert (Hin : py_in c (random_shuffle w (current_playlist_ids s)) = true).
  { apply py_in_In. eapply Permutation_in; [symmetry; apply Hperm|].
    rewrite <- Hq. eapply py_getitem_In; eassumption. }
  destruct (py_index_in _ _ Hin) as (k & Hk & Hkb).
  set (q' := swap_with_head (Z.to_nat k)
               (random_shuffle w (current_playlist_ids s))).
  assert (Hp : Permutation q' (current_playlist_ids s))
    by (eapply perm_trans; [apply swap_with_head_perm | apply Hperm]).
  assert (Hhead : nth_error q' 0 = Some c)
    by (apply swap_with_head_head; now apply py_index_nth).
  unfold set_playback_mode. rewrite bind_gets.
  replace (PlaybackMode.SHUFFLE =? playback_mode s) with false
    by (symmetry; apply Z.eqb_neq; congruence).
  change (PlaybackMode.SHUFFLE =? PlaybackMode.SHUFFLE) with true. cbv iota.
  rewrite bind_modify, !bind_gets.
  erewrite bind_returned by (apply read_selected_id; exact Hok).
  change (selected_id (with_playback_mode PlaybackMode.SHUFFLE s))
    with (selected_id s).
  rewrite (selected_id_of_getitem _ Hsel Hget).
  erewrite bind_returned with (a := tt)
    (s' := with_current_queue_index 0
             (with_playback_queue_ids q'
                (with_playback_queue_ids (current_playlist_ids s)
                   (with_playback_mode PlaybackMode.SHUFFLE s)))).
  2:{ rewrite bind_gets, bind_modify.
      apply shuffle_queue_selected with (c := c); cbn;
        rewrite <- ?Hq; try assumption.
      rewrite Hq. exact Hk. }
  rewrite bind_gets.
  match goal with |- context [bind ?m _ ?s1] =>
    destruct (set_playback_mode_tail (Some c) s1) as (s2 & E2 & ->) end.
  erewrite bind_returned by exact E2.
  cbn [playback_queue_ids with_current_queue_index with_playback_queue_ids].
  assert (Hidx : index_in_new_queue q' (Some c) = 0).
  { unfold index_in_new_queue.
    replace (c =? 0) with false by (symmetry; now apply Z.eqb_neq).
    replace (py_in c q') with true
      by (symmetry; apply py_in_In; eapply nth_error_In; eassumption).
    cbn [negb andb]. now rewrite (py_index_head _ Hhead). }
  rewrite Hidx.
  eexists. split; [reflexivity|]. cbn.
  repeat split.
  - exact Hp.
  - rewrite py_getitem_nth by (rewrite (Permutation_len Hp), <- Hq; lia).
    exact Hhead.
  - apply added_app. cbn. now rewrite <- app_assoc.
Qed.

Lemma set_playback_mode_enters_shuffle_witness :
  let s := mkPM None [1; 2; 3] [1; 2; 3] 1 PlaybackMode.NORMAL false [] [] in
  exists s', set_playback_mode world_all_present PlaybackMode.SHUFFLE s
             = Returned tt s' /\
    py_getitem (playback_queue_ids s') 0 = Some 2 /\
    current_queue_index s' = 0.
Proof.
  intros s.
  destruct (@set_playback_mode_enters_shuffle world_all_present s 2)
    as (s' & E & _ & Hh & Hi & _).
  - intros l. symmetry. apply Permutation_rev.
  - discriminate.
  - reflexivity.
  - reflexivity.
  - vm_compute. split; [discriminate | reflexivity].
  - reflexivity.
  - discriminate.
  - exists s'. repeat split; assumption.
Defined.

Lemma shuffle_queue_index_error (w : World) (s : PlaybackManager) :
  1 < len (playback_queue_ids s) ->
  len (playback_queue_ids s) <= current_queue_index s ->
  _shuffle_queue w s = Raised IndexError s.
Proof.
  intros Hlen Hidx. unfold _shuffle_queue. monad.
  replace (len (playback_queue_ids s) >? 1) with true
    by (symmetry; apply Z.gtb_lt; lia).
  replace (current_queue_index s =? -1) with false
    by (symmetry; apply Z.eqb_neq; lia).
  cbn [negb]. unfold getitem, py_getitem.
  replace (current_queue_index s <? len (playback_queue_ids s)) with false
    by (symmetry; apply Z.ltb_ge; lia).
  replace (current_queue_index s <? 0) with false
    by (symmetry; apply Z.ltb_ge; lia).
  rewrite !andb_false_r. reflexivity.
Qed.

(** Entering SHUFFLE with an index that is in bounds for the queue but at or
    beyond the end of an original list of two tracks or more: the call
    raises IndexError (from [_shuffle_queue], which reads the current id in
    the new list at the old index).  By then the mode is SHUFFLE and the
    queue is the original list, the index is the old one, now out of bounds,
    and no signal has been emitted. *)
Theorem set_playback_mode_shuffle_index_error :
  forall (w : World) (s : PlaybackManager),
    position_ok s ->
    playback_mode s <> PlaybackMode.SHUFFLE ->
    1 < len (current_playlist_ids s) ->
    len (current_playlist_ids s) <= current_queue_index s ->
    let s' := with_playback_queue_ids (current_playlist_ids s)
                (with_playback_mode PlaybackMode.SHUFFLE s) in
    set_playback_mode w PlaybackMode.SHUFFLE s = Raised IndexError s' /\
    ~ position_ok s' /\
    added s s' = [].
Proof.
  intros w s Hok Hm Hlen Hidx. cbv zeta. split; [|split].
  - unfold set_playback_mode. rewrite bind_gets.
    replace (PlaybackMode.SHUFFLE =? playback_mode s) with false
      by (symmetry; apply Z.eqb_neq; congruence).
    change (PlaybackMode.SHUFFLE =? PlaybackMode.SHUFFLE) with true. cbv iota.
    rewrite bind_modify, !bind_gets.
    erewrite bind_returned by (apply read_selected_id; exact Hok).
    erewrite bind_raised; [reflexivity|].
    rewrite bind_gets, bind_modify.
    apply shuffle_queue_index_error; cbn; assumption.
  - unfold position_ok. cbn. lia.
  - apply added_app. cbn. now rewrite app_nil_r.
Qed.

Lemma set_playback_mode_shuffle_index_error_witness :
  let s := mkPM None [1; 2] [7; 8; 9] 2 PlaybackMode.NORMAL false [] [] in
  returned (set_playback_mode world_all_present PlaybackMode.SHUFFLE s) = false.
Proof.
  intros s.
  destruct (@set_playback_mode_shuffle_index_error world_all_present s)
    as (E & _).
  - right. vm_compute. split; [discriminate | reflexivity].
  - discriminate.
  - reflexivity.
  - vm_compute. discriminate.
  - rewrite E. reflexivity.
Defined.

(** ** play, stop and play again *)

(** The four cases of [play]: a paused player is resumed and nothing else
    happens; otherwise, with a track selected and loaded, the player is told
    to play and [track_changed] is emitted again for that track; otherwise a
    non-empty queue is started from index 0; otherwise nothing happens. *)
Theorem play_resumes_or_starts :
  forall (w : World) (s : PlaybackManager),
    (player_playbackState w = PausedState ->
     play w s = Returned tt (then_play s)) /\
    (player_playbackState w <> PausedState ->
     (forall t, current_queue_index s <> -1 -> current_track s = Some t ->
        play w s =
        Returned tt
          (with_effects
             (effects s ++ [Player player_play; Emit (track_changed (Some t))])
             s)) /\
     (current_queue_index s = -1 \/ current_track s = None ->
        playback_queue_ids s <> [] ->
        play w s = play_track_at_index w 0 s) /\
     (current_queue_index s = -1 \/ current_track s = None ->
        playback_queue_ids s = [] ->
        play w s = Returned tt s)).
Proof.
  intros w s. split.
  - intros Hp. unfold play. rewrite Hp. reflexivity.
  - intros Hp.
    assert (E : PlaybackState.eqb (player_playbackState w) PlaybackState.PAUSED
                = false) by (destruct (player_playbackState w); first [reflexivity | congruence]).
    unfold play. rewrite E. rewrite !bind_gets. split; [|split].
    + intros t Hsel Ht.
      replace (current_queue_index s =? -1) with false
        by (symmetry; now apply Z.eqb_neq).
      rewrite Ht. cbn [negb]. monad. now rewrite <- app_assoc.
    + intros Hcase Hne.
      replace (nonempty (playback_queue_ids s)) with true
        by (destruct (playback_queue_ids s); [congruence | reflexivity]).
      destruct Hcase as [Hnone|Hnone]; rewrite Hnone; cbn;
        [reflexivity | now destruct (negb _)].
    + intros Hcase Hemp. rewrite Hemp.
      destruct Hcase as [Hnone|Hnone]; rewrite Hnone; cbn;
        [reflexivity | now destruct (negb _)].
Qed.

Lemma play_resumes_or_starts_witness :
  play world_all_present init = Returned tt init.
Proof.
  destruct (@play_resumes_or_starts world_all_present init) as [_ H].
  apply H; [discriminate | now left | reflexivity].
Defined.

(** [stop] keeps the queue: with a player that is not paused, [play] after
    [stop] starts the queue again from index 0. *)
Theorem stop_then_play_restarts :
  forall (w : World) (s : PlaybackManager),
    player_playbackState w <> PausedState ->
    playback_queue_ids s <> [] ->
    exists s1 s2,
      stop s = Returned tt s1 /\
      play w s1 = Returned tt s2 /\
      current_queue_index s1 = -1 /\
      current_queue_index s2 = 0 /\
      playback_queue_ids s2 = playback_queue_ids s /\
      playback_mode s2 = playback_mode s.
Proof.
  intros w s Hp Hne.
  destruct (stop_index s) as (s1 & E1 & I1 & Q1 & M1 & _).
  assert (E : PlaybackState.eqb (player_playbackState w) PlaybackState.PAUSED
              = false) by (destruct (player_playbackState w); first [reflexivity | congruence]).
  assert (Hplay : play w s1 = play_track_at_index w 0 s1).
  { unfold play. rewrite E, !bind_gets, I1.
    replace (nonempty (playback_queue_ids s1)) with true
      by (rewrite Q1; destruct (playback_queue_ids s); [congruence | reflexivity]).
    reflexivity. }
  destruct (@play_track_at_index_in_range w 0 s1) as (tid & _ & E2).
  { rewrite Q1. pose proof (len_pos_of_ne Hne). lia. }
  exists s1. eexists. split; [exact E1|]. split; [now rewrite Hplay, E2|].
  match goal with |- context [after_start_or_skip w tid ?s0] =>
    destruct (after_start_or_skip_frame w tid s0) as (F1 & F2 & F3 & _) end.
  rewrite F1, F2, F3. cbn. auto.
Qed.

Lemma stop_then_play_restarts_witness :
  exists s1 s2,
    stop three_loaded = Returned tt s1 /\
    play world_all_present s1 = Returned tt s2 /\
    current_queue_index s1 = -1 /\
    current_queue_index s2 = 0 /\
    playback_queue_ids s2 = playback_queue_ids three_loaded /\
    playback_mode s2 = playback_mode three_loaded.
Proof.
  apply (@stop_then_play_restarts world_all_present three_loaded);
    discriminate.
Defined.

(** ** play_track_by_id and play_track *)

(** [play_track_by_id]: an id that is in the queue is played at its first
    position there (the queue is kept); an id that is neither in the queue
    nor in the original list changes nothing at all. *)
Theorem play_track_by_id_finds_first :
  forall (w : World) (track_id : Z) (s : PlaybackManager),
    (py_in track_id (playback_queue_ids s) = true ->
     exists k s',
       py_index (playback_queue_ids s) track_id = Some k /\
       play_track_by_id w track_id s = Returned tt s' /\
       current_queue_index s' = k /\
       py_getitem (playback_queue_ids s') k = Some track_id /\
       (forall j, 0 <= j < k ->
          py_getitem (playback_queue_ids s') j <> Some track_id) /\
       playback_queue_ids s' = playback_queue_ids s) /\
    (py_in track_id (playback_queue_ids s) = false ->
     py_in track_id (current_playlist_ids s) = false ->
     play_track_by_id w track_id s = Returned tt s).
Proof.
  intros w track_id s. split.
  - intros Hin. destruct (py_index_in _ _ Hin) as (k & Hk & Hkb).
    destruct (play_track_at_index_in_range w s Hkb) as (tid & Hv & E).
    exists k. eexists. split; [exact Hk|]. split.
    { unfold play_track_by_id. rewrite !bind_gets, Hin.
      erewrite bind_returned by (apply index_of_some; exact Hk). exact E. }
    match goal with |- context [after_start_or_skip w tid ?s0] =>
      destruct (after_start_or_skip_frame w tid s0) as (F1 & F2 & _) end.
    rewrite F1, F2. cbn. repeat split.
    + rewrite py_getitem_nth by exact Hkb. now apply py_index_nth.
    + intros j Hj. rewrite py_getitem_nth by lia.
      eapply py_index_first; [exact Hk | lia].
  - intros H1 H2. unfold play_track_by_id. rewrite !bind_gets, H1, H2.
    reflexivity.
Qed.

Lemma play_track_by_id_finds_first_witness :
  let s := run [(world_all_present,
                 Call_set_playlist [5; 7; 5; 7] PlaybackMode.NORMAL None)]
               init in
  exists k s',
    py_index (playback_queue_ids s) 7 = Some k /\
    play_track_by_id world_all_present 7 s = Returned tt s' /\
    current_queue_index s' = k /\
    py_getitem (playback_queue_ids s') k = Some 7 /\
    (forall j, 0 <= j < k ->
       py_getitem (playback_queue_ids s') j <> Some 7) /\
    playback_queue_ids s' = playback_queue_ids s.
Proof.
  intros s.
  apply (@play_track_by_id_finds_first world_all_present 7 s). reflexivity.
Defined.

(** [play_track] on a track with an id loads the ids of all the tracks of
    the database, in the order the database gives them (or the track alone
    when the database has none), with the default mode: whatever the mode
    was, it is NORMAL afterwards; the queue is that list and the index is the
    first position of the track in it (0 if it is not there).  Without a
    track, or without an id, only [playback_error] is emitted. *)
Theorem play_track_loads_library :
  forall (w : World) (s : PlaybackManager),
    (forall t tid, id t = Some tid ->
       let ids := if nonempty (all_track_ids w)
                  then all_track_ids w else [tid] in
       exists s', play_track w (Some t) s = Returned tt s' /\
         playback_mode s' = PlaybackMode.NORMAL /\
         playback_queue_ids s' = ids /\
         current_queue_index s' = start_index ids (Some tid)) /\
    (forall o, o = None \/ (exists t, o = Some t /\ id t = None) ->
       play_track w o s =
       Returned tt
         (with_effects (effects s ++ [Emit (playback_error InvalidTrackObject)])
                       s)).
Proof.
  intros w s. split.
  - intros t tid Hid. cbv zeta. unfold play_track. rewrite Hid.
    set (ids := if nonempty (all_track_ids w) then all_track_ids w else [tid]).
    assert (Hne : ids <> []).
    { unfold ids. destruct (all_track_ids w); cbn; discriminate. }
    destruct (set_playlist_nonempty w PlaybackMode.NORMAL (Some tid) s Hne)
      as (x & _ & E).
    assert (E' : (if nonempty (all_track_ids w)
                  then set_playlist w (all_track_ids w) PlaybackMode.NORMAL (Some tid)
                  else set_playlist w [tid] PlaybackMode.NORMAL (Some tid)) s
                 = set_playlist w ids PlaybackMode.NORMAL (Some tid) s).
    { unfold ids. now destruct (nonempty (all_track_ids w)). }
    rewrite E', E.
    eexists. split; [reflexivity|].
    match goal with |- context [after_start_or_skip w x ?s0] =>
      destruct (after_start_or_skip_frame w x s0) as (F1 & F2 & F3 & _) end.
    rewrite F1, F2, F3. cbn. auto.
  - intros o [->|(t & -> & Hid)]; unfold play_track; [|rewrite Hid]; reflexivity.
Qed.

Lemma play_track_loads_library_witness :
  let s := run [(world_all_present,
                 Call_set_playlist [1; 2; 3] PlaybackMode.SHUFFLE None)]
               init in
  (exists s', play_track world_with_library (Some (sample_track 9)) s
              = Returned tt s' /\
     playback_mode s' = PlaybackMode.NORMAL /\
     playback_queue_ids s' = [4; 9; 6] /\
     current_queue_index s' = 1) /\
  (exists s', play_track world_all_present (Some (sample_track 9)) s
              = Returned tt s' /\
     playback_mode s' = PlaybackMode.NORMAL /\
     playback_queue_ids s' = [9] /\
     current_queue_index s' = 0).
Proof.
  intros s. split.
  - destruct (@play_track_loads_library world_with_library s) as [H _].
    apply (H (sample_track 9) 9). reflexivity.
  - destruct (@play_track_loads_library world_all_present s) as [H _].
    apply (H (sample_track 9) 9). reflexivity.
Defined.

(** ** End of media *)

(** The flag [_playing_next_automatically] keeps a second EndOfMedia from
    scheduling a second [play_next]: the first notification sets the flag and
    schedules one timer of 100 ms, and any EndOfMedia that follows while the
    flag is set changes nothing.  LoadedMedia only tells the player to
    play. *)
Theorem end_of_media_schedules_once :
  forall (w w' : World) (s : PlaybackManager),
    _playing_next_automatically s = false ->
    exists s1,
      on_media_status_changed w EndOfMedia s = Returned tt s1 /\
      _playing_next_automatically s1 = true /\
      pending_timers s1 = pending_timers s ++ [100] /\
      added s s1 = [SingleShot 100] /\
      current_queue_index s1 = current_queue_index s /\
      playback_queue_ids s1 = playback_queue_ids s /\
      on_media_status_changed w' EndOfMedia s1 = Returned tt s1 /\
      on_media_status_changed w' LoadedMedia s1 = Returned tt (then_play s1).
Proof.
  intros w w' s Hflag.
  unfold on_media_status_changed at 1. rewrite bind_gets, Hflag. cbn [negb].
  eexists. split; [reflexivity|]. cbn. repeat split.
  now apply added_app.
Qed.

Lemma end_of_media_schedules_once_witness :
  exists s1,
    on_media_status_changed world_all_present EndOfMedia three_loaded
      = Returned tt s1 /\
    pending_timers s1 = [100] /\
    on_media_status_changed world_all_present EndOfMedia s1 = Returned tt s1.
Proof.
  destruct (@end_of_media_schedules_once world_all_present world_all_present
              three_loaded) as (s1 & E & _ & T & _ & _ & _ & E2 & _).
  - reflexivity.
  - exists s1. repeat split; assumption.
Defined.

(** ** No exception escapes

    [never_raises m]: [m] returns normally from every state. *)

Definition never_raises {A} (m : M A) : Prop :=
  forall s, returned (m s) = true.

Lemma never_raises_ret {A} (a : A) : never_raises (ret a).
Proof. intros s. reflexivity. Qed.

Lemma never_raises_gets {A} (f : PlaybackManager -> A) : never_raises (gets f).
Proof. intros s. reflexivity. Qed.

Lemma never_raises_modify (f : PlaybackManager -> PlaybackManager) :
  never_raises (modify f).
Proof. intros s. reflexivity. Qed.

Lemma never_raises_emit (sig : Signal) : never_raises (emit sig).
Proof. intros s. reflexivity. Qed.

Lemma never_raises_player (c : PlayerCall) : never_raises (player c).
Proof. intros s. reflexivity. Qed.

Lemma never_raises_singleShot (d : Z) : never_raises (singleShot d).
Proof. intros s. reflexivity. Qed.

Lemma never_raises_bind {A B} (m : M A) (k : A -> M B) :
  never_raises m -> (forall a, never_raises (k a)) -> never_raises (bind m k).
Proof.
  intros Hm Hk s. unfold bind. specialize (Hm s).
  destruct (m s) as [a s1|e s1]; [apply Hk | discriminate].
Qed.

Lemma never_raises_stop : never_raises stop.
Proof. intros s. now rewrite stop_eq. Qed.

Lemma never_raises_play_track_at_index (w : World) (i : Z) :
  never_raises (play_track_at_index w i).
Proof.
  intros s.
  destruct (Z.le_gt_cases 0 i) as [H0|H0];
    [destruct (Z.lt_ge_cases i (len (playback_queue_ids s))) as [H1|H1]|].
  - destruct (@play_track_at_index_in_range w i s) as (tid & _ & E); [lia|].
    now rewrite E.
  - rewrite play_track_at_index_is_stop by lia.
    apply never_raises_stop.
  - rewrite play_track_at_index_is_stop by lia.
    apply never_raises_stop.
Qed.

Lemma never_raises_set_playlist (w : World) (ids : list Z) (mode : Z)
    (start : option Z) :
  never_raises (set_playlist w ids mode start).
Proof.
  intros s. destruct ids as [|x ids'] eqn:Eids; [reflexivity|].
  rewrite <- Eids.
  assert (Hne : ids <> []) by (rewrite Eids; discriminate).
  destruct (set_playlist_nonempty w mode start s Hne) as (tid & _ & E).
  now rewrite E.
Qed.

Ltac never_raises_step :=
  first
    [ apply never_raises_ret | apply never_raises_gets
    | apply never_raises_emit | apply never_raises_player
    | apply never_raises_singleShot | apply never_raises_stop
    | apply never_raises_play_track_at_index
    | apply never_raises_set_playlist
    | apply never_raises_bind; [|intros]
    | match goal with
      | |- never_raises (modify _) => apply never_raises_modify
      | |- never_raises (if ?c then _ else _) => destruct c
      | |- never_raises (match ?x with _ => _ end) => destruct x
      end ].

Section NeverRaises.

Variable w : World.

Lemma never_raises_play : never_raises (play w).
Proof. unfold play. repeat never_raises_step. Qed.

Lemma never_raises_pause : never_raises (pause w).
Proof. unfold pause. repeat never_raises_step. Qed.

Lemma never_raises_toggle_play_pause : never_raises (toggle_play_pause w).
Proof.
  unfold toggle_play_pause.
  destruct (PlaybackState.eqb _ _);
    [apply never_raises_pause | apply never_raises_play].
Qed.

Lemma never_raises_play_unless_none (i : Z) :
  never_raises (play_unless_none w i).
Proof. unfold play_unless_none. repeat never_raises_step. Qed.

Lemma never_raises_play_next : never_raises (play_next w).
Proof.
  unfold play_next.
  repeat first [apply never_raises_play_unless_none | never_raises_step].
Qed.

Lemma never_raises_play_previous : never_raises (play_previous w).
Proof.
  unfold play_previous.
  repeat first [apply never_raises_play_unless_none | never_raises_step].
Qed.

Lemma never_raises_on_media_status_changed (st : MediaStatus) :
  never_raises (on_media_status_changed w st).
Proof. unfold on_media_status_changed. repeat never_raises_step. Qed.

Lemma never_raises_fire_timer (k : nat) : never_raises (fire_timer w k).
Proof.
  unfold fire_timer.
  repeat first [apply never_raises_play_next | never_raises_step].
Qed.

Lemma never_raises_play_track (t : option Track) : never_raises (play_track w t).
Proof. unfold play_track. repeat never_raises_step. Qed.

End NeverRaises.

Lemma handle_returns (w : World) (ev : Event) (s : PlaybackManager) :
  wf s -> returned (handle w ev s) = true.
Proof.
  intros [Hok Hpl]. destruct ev; cbn [handle];
    try solve [ apply never_raises_set_playlist
              | apply never_raises_play_track_at_index
              | apply never_raises_play | apply never_raises_pause
              | apply never_raises_toggle_play_pause | apply never_raises_stop
              | apply never_raises_play_next | apply never_raises_play_previous
              | apply never_raises_play_track
              | apply never_raises_on_media_status_changed
              | apply never_raises_fire_timer
              | reflexivity ].
  - (* play_track_by_id *)
    unfold play_track_by_id. rewrite !bind_gets, Hpl. cbn [py_in existsb].
    destruct (py_in track_id (playback_queue_ids s)) eqn:Hin; [|reflexivity].
    destruct (py_index_in _ _ Hin) as (k & Hk & _).
    erewrite bind_returned by (apply index_of_some; exact Hk).
    apply never_raises_play_track_at_index.
  - (* set_playback_mode *)
    destruct (Z.eq_dec mode (playback_mode s)) as [E|E].
    + unfold set_playback_mode. rewrite bind_gets.
      replace (mode =? playback_mode s) with true
        by (symmetry; now apply Z.eqb_eq).
      reflexivity.
    + now rewrite (set_playback_mode_empties w Hok Hpl E).
Qed.

(** On a [PlaybackManager] built by [__init__] and driven by any sequence of
    events, no method call, notification or timer ends in an exception: the
    IndexError and ValueError that the list operations can raise are out of
    reach. *)
Theorem no_exception_escapes :
  forall (history : list (World * Event)) (w : World) (ev : Event),
    returned (handle w ev (run history init)) = true.
Proof.
  intros history w ev. apply handle_returns, run_wf.
  split; [now left | reflexivity].
Qed.

(** * Times as text *)

Lemma digits_length_ge (fuel : nat) :
  forall (n : Z) (acc : string),
    (String.length acc <= String.length (digits fuel n acc))%nat.
Proof.
  induction fuel as [|fuel IH]; intros n acc; cbn [digits]; [lia|].
  destruct (n <? 10); [cbn; lia|].
  eapply Nat.le_trans; [|apply IH]. cbn. lia.
Qed.

Lemma digits_one (fuel : nat) (n : Z) (acc : string) :
  0 <= n < 10 -> digits (S fuel) n acc = String (digit n) acc.
Proof.
  intros Hn. cbn [digits].
  replace (n <? 10) with true by (symmetry; apply Z.ltb_lt; lia).
  now rewrite Z.mod_small by lia.
Qed.

Lemma digits_two (fuel : nat) (n : Z) (acc : string) :
  10 <= n < 100 ->
  digits (S (S fuel)) n acc =
  String (digit (n / 10)) (String (digit (n mod 10)) acc).
Proof.
  intros Hn. cbn [digits].
  replace (n <? 10) with false by (symmetry; apply Z.ltb_ge; lia).
  assert (0 <= n / 10 < 10)
    by (split; [apply Z.div_pos; lia | apply Z.div_lt_upper_bound; lia]).
  replace (n / 10 <? 10) with true by (symmetry; apply Z.ltb_lt; lia).
  now rewrite (Z.mod_small (n / 10)) by lia.
Qed.

Lemma py_str_one_digit (n : Z) :
  0 <= n < 10 -> py_str n = String (digit n) EmptyString.
Proof.
  intros Hn. unfold py_str.
  replace (n <? 0) with false by (symmetry; apply Z.ltb_ge; lia).
  now apply digits_one.
Qed.

Lemma py_str_long (n : Z) :
  10 <= n -> (2 <= String.length (py_str n))%nat.
Proof.
  intros Hn. unfold py_str.
  replace (n <? 0) with false by (symmetry; apply Z.ltb_ge; lia).
  cbn [digits].
  replace (n <? 10) with false by (symmetry; apply Z.ltb_ge; lia).
  destruct (Z.to_nat n) as [|f] eqn:E; [lia|].
  cbn [digits]. destruct (n / 10 <? 10); [cbn; lia|].
  eapply Nat.le_trans; [|apply digits_length_ge]. cbn. lia.
Qed.

Lemma py_str_negative (n : Z) :
  n < 0 ->
  exists c rest, py_str n = String "-" (String c rest).
Proof.
  intros Hn. unfold py_str.
  replace (n <? 0) with true by (symmetry; apply Z.ltb_lt; lia).
  pose proof (digits_length_ge (Z.to_nat (- n)) (- n / 10)
                (String (digit (- n mod 10)) EmptyString)) as Hlen.
  cbn [digits]. destruct (- n <? 10); [eauto|].
  destruct (digits _ _ _) as [|c rest]; [cbn in Hlen; lia | eauto].
Qed.

Lemma py_format_02d_two_digits (n : Z) :
  0 <= n < 100 ->
  py_format_02d n =
  String (digit (n / 10)) (String (digit (n mod 10)) EmptyString).
Proof.
  intros Hn. unfold py_format_02d.
  destruct (Z.lt_ge_cases n 10) as [Hs|Hl].
  - rewrite py_str_one_digit by lia. cbn [String.length Nat.ltb Nat.leb].
    rewrite Z.div_small, Z.mod_small by lia. reflexivity.
  - replace (String.length (py_str n) <? 2)%nat with false
      by (symmetry; apply Nat.ltb_ge; apply py_str_long; lia).
    unfold py_str.
    replace (n <? 0) with false by (symmetry; apply Z.ltb_ge; lia).
    destruct (Z.to_nat n) as [|f] eqn:E; [lia|].
    now apply digits_two.
Qed.

(** [format_duration_ms]: the text is the whole minutes, a colon, and the
    seconds on exactly two digits; minutes and seconds add up to the whole
    seconds of the argument, a negative argument counting as 0 (so that it
    gives 0:00). *)
Theorem format_duration_ms_shape :
  forall ms : Z,
    let total := Z.max 0 ms / 1000 in
    let minutes := total / 60 in
    let seconds := total mod 60 in
    format_duration_ms ms =
      (py_str minutes ++
       String ":" (String (digit (seconds / 10))
                          (String (digit (seconds mod 10)) EmptyString)))%string /\
    0 <= seconds < 60 /\
    60 * minutes + seconds = total /\
    0 <= minutes /\
    (ms < 0 -> format_duration_ms ms = "0:00"%string).
Proof.
  intros ms. cbv zeta.
  assert (Hmax : (if ms <? 0 then 0 else ms) = Z.max 0 ms)
    by (destruct (Z.ltb_spec ms 0); lia).
  assert (Hsec : 0 <= (Z.max 0 ms / 1000) mod 60 < 60)
    by (apply Z.mod_pos_bound; lia).
  split; [|split; [exact Hsec|split; [|split]]].
  - unfold format_duration_ms. rewrite Hmax.
    now rewrite py_format_02d_two_digits by lia.
  - pose proof (Z.div_mod (Z.max 0 ms / 1000) 60). lia.
  - apply Z.div_pos; [apply Z.div_pos|]; lia.
  - intros Hneg. unfold format_duration_ms.
    replace (ms <? 0) with true by (symmetry; apply Z.ltb_lt; lia).
    reflexivity.
Qed.

Lemma format_duration_ms_shape_witness :
  format_duration_ms (-250) = "0:00"%string.
Proof.
  destruct (format_duration_ms_shape (-250)) as (_ & _ & _ & _ & H).
  apply H. lia.
Defined.

(** The two formatters of the repository.  On a time that is not negative
    [PlayerControls._format_time] gives what [format_duration_ms] gives, with
    a zero in front when the minutes are below ten (below 600000 ms).  On a
    negative time they part: [format_duration_ms] gives 0:00 and
    [_format_time], which does not clamp, a text that starts with a minus
    sign. *)
Theorem format_time_agrees_with_format_duration_ms :
  forall ms : Z,
    (0 <= ms ->
     _format_time ms =
     if ms <? 600000 then String "0" (format_duration_ms ms)
     else format_duration_ms ms) /\
    (ms < 0 ->
     format_duration_ms ms = "0:00"%string /\
     exists rest, _format_time ms = String "-" rest).
Proof.
  intros ms. split.
  - intros Hms. unfold _format_time, format_duration_ms.
    replace (ms <? 0) with false by (symmetry; apply Z.ltb_ge; lia).
    cbv zeta.
    assert (Hmin : 0 <= ms / 1000 / 60)
      by (apply Z.div_pos; [apply Z.div_pos|]; lia).
    destruct (Z.ltb_spec ms 600000) as [Hlt|Hge].
    + assert (ms / 1000 / 60 < 10).
      { apply Z.div_lt_upper_bound; [lia|].
        apply Z.div_lt_upper_bound; lia. }
      unfold py_format_02d at 1. rewrite py_str_one_digit by lia.
      reflexivity.
    + assert (10 <= ms / 1000 / 60).
      { apply Z.div_le_lower_bound; [lia|].
        apply Z.div_le_lower_bound; lia. }
      unfold py_format_02d at 1.
      replace (String.length (py_str (ms / 1000 / 60)) <? 2)%nat with false
        by (symmetry; apply Nat.ltb_ge; apply py_str_long; lia).
      reflexivity.
  - intros Hneg. split.
    + unfold format_duration_ms.
      replace (ms <? 0) with true by (symmetry; apply Z.ltb_lt; lia).
      reflexivity.
    + assert (Hmin : ms / 1000 / 60 < 0).
      { apply Z.div_lt_upper_bound; [lia|].
        assert (ms / 1000 < 0) by (apply Z.div_lt_upper_bound; lia). lia. }
      destruct (py_str_negative Hmin) as (c & rest & E).
      unfold _format_time, py_format_02d at 1. cbv zeta. rewrite E.
      cbn [String.length Nat.ltb Nat.leb].
      eexists. cbn [String.append]. reflexivity.
Qed.

Lemma format_time_agrees_with_format_duration_ms_witness :
  _format_time 61000 = "01:01"%string /\
  format_duration_ms 61000 = "1:01"%string /\
  _format_time (-1) = "-1:59"%string.
Proof.
  destruct (format_time_agrees_with_format_duration_ms 61000) as [H _].
  split; [|split; reflexivity].
  rewrite H by lia. reflexivity.
Defined.

(** * File names and volume *)

Lemma filter_clean (l : list N) :
  Forall (fun c => invalid_filename_char c = false) l ->
  filter (fun c => negb (invalid_filename_char c)) l = l.
Proof.
  induction 1 as [|c l Hc Hl IH]; cbn [filter]; [reflexivity|].
  rewrite Hc. cbn [negb]. now rewrite IH.
Qed.

Lemma filter_is_clean (l : list N) :
  Forall (fun c => invalid_filename_char c = false)
         (filter (fun c => negb (invalid_filename_char c)) l).
Proof.
  apply Forall_forall. intros c Hc. apply filter_In in Hc as [_ Hc].
  now apply negb_true_iff.
Qed.

(** [_sanitize_filename]: the result has at most 100 characters and none of
    the nine characters of the class; a name that is clean and of at most 100
    characters is returned as it is; and so sanitizing twice is sanitizing
    once.  A longer name is cut to its first 97 clean characters and three
    dots. *)
Theorem sanitize_filename_safe :
  forall filename : list N,
    let clean := filter (fun c => negb (invalid_filename_char c)) filename in
    (List.length (_sanitize_filename filename) <= 100)%nat /\
    Forall (fun c => invalid_filename_char c = false)
           (_sanitize_filename filename) /\
    _sanitize_filename (_sanitize_filename filename)
      = _sanitize_filename filename /\
    ((List.length clean <= 100)%nat -> _sanitize_filename filename = clean) /\
    ((100 < List.length clean)%nat ->
     _sanitize_filename filename = firstn 97 clean ++ [46; 46; 46]%N /\
     List.length (_sanitize_filename filename) = 100%nat).
Proof.
  intros filename. cbv zeta.
  set (clean := filter (fun c => negb (invalid_filename_char c)) filename).
  assert (Hclean : Forall (fun c => invalid_filename_char c = false) clean)
    by apply filter_is_clean.
  assert (Hres : Forall (fun c => invalid_filename_char c = false)
                        (_sanitize_filename filename)).
  { unfold _sanitize_filename. fold clean.
    destruct (100 <? List.length clean)%nat; [|exact Hclean].
    apply Forall_app. split.
    - apply Forall_forall. intros c Hc.
      rewrite Forall_forall in Hclean. apply Hclean.
      rewrite <- (firstn_skipn 97 clean). apply in_or_app. now left.
    - repeat constructor. }
  assert (Hlen : (List.length (_sanitize_filename filename) <= 100)%nat).
  { unfold _sanitize_filename. fold clean.
    destruct (Nat.ltb_spec 100 (List.length clean)) as [Hl|Hs]; [|exact Hs].
    rewrite length_app, length_firstn. cbn [List.length]. lia. }
  split; [exact Hlen|]. split; [exact Hres|]. split; [|split].
  - unfold _sanitize_filename at 1.
    rewrite (filter_clean Hres).
    replace (100 <? List.length (_sanitize_filename filename))%nat with false
      by (symmetry; now apply Nat.ltb_ge).
    reflexivity.
  - intros Hs. unfold _sanitize_filename. fold clean.
    replace (100 <? List.length clean)%nat with false
      by (symmetry; now apply Nat.ltb_ge).
    reflexivity.
  - intros Hl. unfold _sanitize_filename. fold clean.
    replace (100 <? List.length clean)%nat with true
      by (symmetry; now apply Nat.ltb_lt).
    split; [reflexivity|].
    rewrite length_app, length_firstn. cbn [List.length]. lia.
Qed.

Lemma sanitize_filename_safe_witness :
  _sanitize_filename [65; 47; 66; 58; 67]%N = [65; 66; 67]%N.
Proof.
  destruct (sanitize_filename_safe [65; 47; 66; 58; 67]%N)
    as (_ & _ & _ & H & _).
  apply H. cbn. lia.
Defined.

(** [set_volume] stores a volume between 0 and 100: the argument itself when
    it is in that range, 0 below it and 100 above. *)
Theorem set_volume_clamps :
  forall volume : Z,
    0 <= set_volume volume <= 100 /\
    (0 <= volume <= 100 -> set_volume volume = volume) /\
    (volume < 0 -> set_volume volume = 0) /\
    (100 < volume -> set_volume volume = 100) /\
    set_volume (set_volume volume) = set_volume volume.
Proof.
  intros volume. unfold set_volume. repeat split; lia.
Qed.

Lemma set_volume_clamps_witness :
  set_volume 50 = 50 /\ set_volume (-3) = 0 /\ set_volume 250 = 100.
Proof.
  destruct (set_volume_clamps 50) as (_ & H1 & _).
  destruct (set_volume_clamps (-3)) as (_ & _ & H2 & _).
  destruct (set_volume_clamps 250) as (_ & _ & _ & H3 & _).
  split; [apply H1; lia | split; [apply H2; lia | apply H3; lia]].
Defined.
